(** * QueryHandler.js: a shallow embedding and its properties

    The library under study (src/queryHandler.js) is a thin layer over three
    host facilities: [URLSearchParams], [URL] and plain JavaScript objects.
    The development is organised as follows.

    - [Chars], [Utf8], [UrlEncoded]: the byte-level algorithms of the URL
      standard that the host runs on behalf of the library
      (percent-decoding, UTF-8 decoding with replacement, the
      application/x-www-form-urlencoded parser and serializer).
    - [JS]: ordinary objects with string values (property assignment and
      [Object.entries] with the language's own-property order), completions.
    - [Url]: the [URL] object, split into a front part (scheme to path),
      which is left to a host parser given as a type class, and the query
      and fragment parts, which are modelled in full.
    - [QueryHandler]: the five methods of the source, in source order.

    Text is represented by its UTF-8 byte sequence ([string] of Stdlib). *)

From Stdlib Require Import String Ascii List Bool NArith Arith Lia Permutation Sorted.
Import ListNotations.
Local Open Scope list_scope.
Local Open Scope string_scope.

(* ================================================================== *)
(** ** Characters and bytes *)

Module Chars.

Definition code (c : ascii) : N := N_of_ascii c.

Definition in_range (lo hi : N) (c : ascii) : bool :=
  ((lo <=? code c) && (code c <=? hi))%N.

Definition is_digit (c : ascii) : bool := in_range 48 57 c.
Definition is_upper (c : ascii) : bool := in_range 65 90 c.
Definition is_lower (c : ascii) : bool := in_range 97 122 c.
Definition is_alnum (c : ascii) : bool := is_digit c || is_upper c || is_lower c.

(** C0 control or space: U+0000 .. U+0020. *)
Definition is_c0_or_space (c : ascii) : bool := (code c <=? 32)%N.

Definition not_c0_or_space (c : ascii) : bool := negb (is_c0_or_space c).

(** ASCII tab or newline: U+0009, U+000A, U+000D. *)
Definition is_tab_or_newline (c : ascii) : bool :=
  ((code c =? 9) || (code c =? 10) || (code c =? 13))%N.

(** Value of an ASCII hex digit (either case). *)
Definition hex_value (c : ascii) : option N :=
  if is_digit c then Some (code c - 48)%N
  else if in_range 65 70 c then Some (code c - 55)%N
  else if in_range 97 102 c then Some (code c - 87)%N
  else None.

(** Upper-case hex digit of a nibble. *)
Definition hex_digit (n : N) : ascii :=
  if (n <? 10)%N then ascii_of_N (48 + n) else ascii_of_N (55 + n).

(** [%XX] for a byte, upper-case as the standard's percent-encode writes it. *)
Definition percent_encode_byte (c : ascii) : string :=
  String "%" (String (hex_digit (code c / 16)) (String (hex_digit (code c mod 16)) "")).

Fixpoint string_forallb (p : ascii -> bool) (s : string) : bool :=
  match s with
  | "" => true
  | String c r => p c && string_forallb p r
  end.

Fixpoint string_flat_map (f : ascii -> string) (s : string) : string :=
  match s with
  | "" => ""
  | String c r => f c ++ string_flat_map f r
  end.

Fixpoint string_map (f : ascii -> ascii) (s : string) : string :=
  match s with
  | "" => ""
  | String c r => String (f c) (string_map f r)
  end.

Fixpoint string_filter (p : ascii -> bool) (s : string) : string :=
  match s with
  | "" => ""
  | String c r => if p c then String c (string_filter p r) else string_filter p r
  end.

(** Pieces of [s] between occurrences of [sep]; never the empty list. *)
Fixpoint split_on (sep : ascii) (s : string) : list string :=
  match s with
  | "" => [""]
  | String c r =>
      if Ascii.eqb c sep then "" :: split_on sep r
      else match split_on sep r with
           | h :: t => String c h :: t
           | [] => [String c ""]
           end
  end.

(** [s] cut at the first character satisfying [p]: what precedes it, and
    the character with what follows it, when there is one. *)
Fixpoint break_at (p : ascii -> bool) (s : string) : string * option (ascii * string) :=
  match s with
  | "" => ("", None)
  | String c r =>
      if p c then ("", Some (c, r))
      else let (a, b) := break_at p r in (String c a, b)
  end.

Fixpoint drop_while (p : ascii -> bool) (s : string) : string :=
  match s with
  | "" => ""
  | String c r => if p c then drop_while p r else s
  end.

(** Removes the longest suffix all of whose characters satisfy [p]. *)
Fixpoint drop_while_end (p : ascii -> bool) (s : string) : string :=
  match s with
  | "" => ""
  | String c r =>
      match drop_while_end p r with
      | "" => if p c then "" else String c ""
      | r' => String c r'
      end
  end.

End Chars.
Import Chars.

(* ================================================================== *)
(** ** UTF-8 decoding with replacement

    The standard's "UTF-8 decode without BOM": ill-formed input is not an
    error, each maximal ill-formed part is replaced by U+FFFD.  Text being
    represented by its UTF-8 bytes, the decoder is a function from bytes to
    well-formed bytes.  The standard states it as a machine with a
    "bytes needed" counter and a pair of bounds for the next byte; the same
    function is written here by looking ahead, so that it is structural. *)

Module Utf8.

(** U+FFFD REPLACEMENT CHARACTER, in UTF-8: EF BF BD. *)
Definition replacement : string :=
  String (ascii_of_N 239) (String (ascii_of_N 191) (String (ascii_of_N 189) "")).

Definition is_cont (c : ascii) : bool := in_range 128 191 c.

(** Bounds of the byte that follows a three-byte lead. *)
Definition lower3 (b0 : ascii) : N := if (code b0 =? 224)%N then 160%N else 128%N.
Definition upper3 (b0 : ascii) : N := if (code b0 =? 237)%N then 159%N else 191%N.
(** Bounds of the byte that follows a four-byte lead. *)
Definition lower4 (b0 : ascii) : N := if (code b0 =? 240)%N then 144%N else 128%N.
Definition upper4 (b0 : ascii) : N := if (code b0 =? 244)%N then 143%N else 191%N.

Fixpoint utf8_decode (s : string) : string :=
  match s with
  | "" => ""
  | String b0 r0 =>
      if (code b0 <=? 127)%N then String b0 (utf8_decode r0)
      else if in_range 194 223 b0 then
        match r0 with
        | "" => replacement
        | String b1 r1 =>
            if is_cont b1 then String b0 (String b1 (utf8_decode r1))
            else replacement ++ utf8_decode r0
        end
      else if in_range 224 239 b0 then
        match r0 with
        | "" => replacement
        | String b1 r1 =>
            if in_range (lower3 b0) (upper3 b0) b1 then
              match r1 with
              | "" => replacement
              | String b2 r2 =>
                  if is_cont b2
                  then String b0 (String b1 (String b2 (utf8_decode r2)))
                  else replacement ++ utf8_decode r1
              end
            else replacement ++ utf8_decode r0
        end
      else if in_range 240 244 b0 then
        match r0 with
        | "" => replacement
        | String b1 r1 =>
            if in_range (lower4 b0) (upper4 b0) b1 then
              match r1 with
              | "" => replacement
              | String b2 r2 =>
                  if is_cont b2 then
                    match r2 with
                    | "" => replacement
                    | String b3 r3 =>
                        if is_cont b3
                        then String b0 (String b1 (String b2 (String b3 (utf8_decode r3))))
                        else replacement ++ utf8_decode r2
                    end
                  else replacement ++ utf8_decode r1
              end
            else replacement ++ utf8_decode r0
        end
      else replacement ++ utf8_decode r0
  end.

(** Well-formed text: what the decoder leaves alone. *)
Definition well_formed (s : string) : Prop := utf8_decode s = s.

End Utf8.
Import Utf8.

(* ================================================================== *)
(** ** application/x-www-form-urlencoded *)

Module UrlEncoded.

(** Percent-decode of a byte sequence: [%] followed by two hex digits is
    the byte they denote, anything else stands for itself. *)
Fixpoint percent_decode (s : string) : string :=
  match s with
  | "" => ""
  | String c r =>
      if Ascii.eqb c "%" then
        match r with
        | String h (String l r') =>
            match hex_value h, hex_value l with
            | Some a, Some b => String (ascii_of_N (16 * a + b)) (percent_decode r')
            | _, _ => String c (percent_decode r)
            end
        | _ => String c (percent_decode r)
        end
      else String c (percent_decode r)
  end.

Definition plus_to_space (s : string) : string :=
  string_map (fun c => if Ascii.eqb c "+" then " "%char else c) s.

(** One [name=value] sequence of the parser. *)
Definition parse_pair (seq : string) : string * string :=
  let (name, rest) := break_at (Ascii.eqb "=") seq in
  let value := match rest with Some (_, v) => v | None => "" end in
  (utf8_decode (percent_decode (plus_to_space name)),
   utf8_decode (percent_decode (plus_to_space value))).

Definition nonempty (s : string) : bool :=
  match s with "" => false | _ => true end.

(** The urlencoded parser: split on [&], skip empty sequences. *)
Definition parse (input : string) : list (string * string) :=
  map parse_pair (filter nonempty (split_on "&" input)).

(** The bytes the urlencoded serializer leaves as they are: ASCII
    alphanumerics and [*], [-], [.], [_]. *)
Definition is_unreserved (c : ascii) : bool :=
  is_alnum c
  || Ascii.eqb c "*" || Ascii.eqb c "-" || Ascii.eqb c "." || Ascii.eqb c "_".

(** The characters a serialized name or value is made of. *)
Definition is_output_char (c : ascii) : bool :=
  is_unreserved c || Ascii.eqb c "+" || Ascii.eqb c "%".

(** The characters a serialized list is made of. *)
Definition is_query_char (c : ascii) : bool :=
  is_output_char c || Ascii.eqb c "=" || Ascii.eqb c "&".

Definition serialize_byte (c : ascii) : string :=
  if Ascii.eqb c " " then "+"
  else if is_unreserved c then String c ""
  else percent_encode_byte c.

Definition serialize_string (s : string) : string :=
  string_flat_map serialize_byte s.

Definition serialize_pair (p : string * string) : string :=
  serialize_string (fst p) ++ "=" ++ serialize_string (snd p).

(** The urlencoded serializer: [name=value] joined by [&]. *)
Fixpoint serialize (l : list (string * string)) : string :=
  match l with
  | [] => ""
  | [p] => serialize_pair p
  | p :: t => serialize_pair p ++ "&" ++ serialize t
  end.

End UrlEncoded.


(* ================================================================== *)
(** ** JavaScript: ordinary objects holding text, completions *)

Module JS.

(** An ordinary object all of whose own properties are enumerable data
    properties holding text, in the order of their creation.  Keys are
    unique ([wf]). *)
Definition Obj : Type := list (string * string).

Definition keys (l : list (string * string)) : list string := map fst l.

Definition wf (o : Obj) : Prop := NoDup (keys o).

Definition has_key (k : string) (l : list (string * string)) : bool :=
  existsb (fun p => String.eqb (fst p) k) l.

(** The value of the own property [k], if there is one. *)
Fixpoint get_own (o : Obj) (k : string) : option string :=
  match o with
  | [] => None
  | (k', v') :: t => if String.eqb k' k then Some v' else get_own t k
  end.

(** Writes the own property [k]: in place when it exists, as the newest
    property otherwise. *)
Fixpoint define_own (o : Obj) (k v : string) : Obj :=
  match o with
  | [] => [(k, v)]
  | (k', v') :: t =>
      if String.eqb k' k then (k, v) :: t else (k', v') :: define_own t k v
  end.

(** [o[k] = v] for a text [v] and an object [o] whose prototype is
    [Object.prototype].  Every property of [Object.prototype] is a writable
    data property, which the assignment shadows by a new own property,
    except the accessor [__proto__]: its setter is called instead, and does
    nothing for a value that is neither an object nor null. *)
Definition assign (o : Obj) (k v : string) : Obj :=
  if negb (has_key k o) && String.eqb k "__proto__" then o
  else define_own o k v.

(** Value of a string of decimal digits. *)
Definition decimal_value (s : string) : N :=
  (fix go (acc : N) (s : string) : N :=
     match s with
     | "" => acc
     | String c r => go (10 * acc + (code c - 48))%N r
     end) 0%N s.

(** A property key is an array index when it is the canonical decimal
    writing of an integer from 0 to 2^32 - 2. *)
Definition array_index (k : string) : option N :=
  match k with
  | "" => None
  | String c r =>
      if string_forallb is_digit k
         && (negb (Ascii.eqb c "0") || String.eqb r "")
         && (decimal_value k <=? 4294967294)%N
      then Some (decimal_value k)
      else None
  end.

Definition is_array_index (k : string) : bool :=
  match array_index k with Some _ => true | None => false end.

Fixpoint insert_by_index (i : N) (p : string * string)
    (l : list (N * (string * string))) : list (N * (string * string)) :=
  match l with
  | [] => [(i, p)]
  | (j, q) :: t =>
      if (i <=? j)%N then (i, p) :: l else (j, q) :: insert_by_index i p t
  end.

Fixpoint sort_by_index (l : list (N * (string * string))) : list (N * (string * string)) :=
  match l with
  | [] => []
  | (i, p) :: t => insert_by_index i p (sort_by_index t)
  end.

(** The order [sort_by_index] sorts by. *)
Definition index_le (a b : N * (string * string)) : Prop := (fst a <= fst b)%N.

Fixpoint indexed (o : Obj) : list (N * (string * string)) :=
  match o with
  | [] => []
  | p :: t =>
      match array_index (fst p) with
      | Some i => (i, p) :: indexed t
      | None => indexed t
      end
  end.

(** [Object.entries(o)]: own property keys are listed with the array
    indices first, in ascending numeric order, then the other strings in the
    order of their creation. *)
Definition Object_entries (o : Obj) : list (string * string) :=
  (map snd (sort_by_index (indexed o))
   ++ filter (fun p => negb (is_array_index (fst p))) o)%list.

(** What the source throws: [new Error(message)], the [TypeError] of the
    [URL] constructor, and the [TypeError] of an assignment that its
    receiver does not admit (the messages of the last two are the host's). *)
Inductive Exception : Type :=
  | Error (message : string)
  | URLTypeError
  | AssignmentTypeError.

Inductive Completion (A : Type) : Type :=
  | Normal (v : A)
  | Throw (e : Exception).
Arguments Normal {A} v.
Arguments Throw {A} e.

End JS.
Import JS.

(* ================================================================== *)
(** ** The URL object *)

Module Url.

(** Everything of a URL record up to and including its path, as the host
    parsed it: whether the scheme is special, and the serialization. *)
Record Front : Type := { special : bool; front_text : string }.

(** The host's parser for the front part of an input (the text before the
    first [?] or [#]), without a base URL.  [None] is failure. *)
Class Host : Type := { parse_front : string -> option Front }.

Record URLRecord : Type :=
  { front : Front; query : option string; fragment : option string }.

Definition in_c0_control_set (c : ascii) : bool :=
  ((code c <=? 31) || (126 <? code c))%N.

Definition in_fragment_set (c : ascii) : bool :=
  in_c0_control_set c || Ascii.eqb c " " || Ascii.eqb c (ascii_of_N 34)
  || Ascii.eqb c "<" || Ascii.eqb c ">" || Ascii.eqb c "`".

Definition in_query_set (c : ascii) : bool :=
  in_c0_control_set c || Ascii.eqb c " " || Ascii.eqb c (ascii_of_N 34)
  || Ascii.eqb c "#" || Ascii.eqb c "<" || Ascii.eqb c ">".

Definition in_special_query_set (c : ascii) : bool :=
  in_query_set c || Ascii.eqb c "'".

Definition percent_encode (set : ascii -> bool) (s : string) : string :=
  string_flat_map (fun c => if set c then percent_encode_byte c else String c "") s.

Definition query_set_of (f : Front) : ascii -> bool :=
  if special f then in_special_query_set else in_query_set.

(** Leading and trailing C0 control or space are removed, then every ASCII
    tab or newline. *)
Definition preprocess (input : string) : string :=
  string_filter (fun c => negb (is_tab_or_newline c))
    (drop_while_end is_c0_or_space (drop_while is_c0_or_space input)).

Definition starts_query_or_fragment (c : ascii) : bool :=
  Ascii.eqb c "?" || Ascii.eqb c "#".

(** The basic URL parser without a base: the front part goes to the host,
    the query state and the fragment state are written out. *)
Definition basic_parse `{Host} (input : string) : option URLRecord :=
  let (front_input, rest) := break_at starts_query_or_fragment (preprocess input) in
  match parse_front front_input with
  | None => None
  | Some f =>
      match rest with
      | None => Some {| front := f; query := None; fragment := None |}
      | Some (c, after) =>
          if Ascii.eqb c "?" then
            let (q, frag) := break_at (Ascii.eqb "#") after in
            Some {| front := f;
                    query := Some (percent_encode (query_set_of f) q);
                    fragment := match frag with
                                | Some (_, fr) => Some (percent_encode in_fragment_set fr)
                                | None => None
                                end |}
          else
            Some {| front := f; query := None;
                    fragment := Some (percent_encode in_fragment_set after) |}
      end
  end.

(** The URL serializer. *)
Definition serialize (u : URLRecord) : string :=
  front_text (front u)
  ++ match query u with Some q => "?" ++ q | None => "" end
  ++ match fragment u with Some f => "#" ++ f | None => "" end.

(** A [URL] object: its URL record and the list of its query object. *)
Record URL : Type := { url : URLRecord; searchParams : list (string * string) }.

(** [new URL(input)]. *)
Definition URL_new `{Host} (input : string) : option URL :=
  match basic_parse input with
  | None => None
  | Some u =>
      Some {| url := u;
              searchParams :=
                UrlEncoded.parse (match query u with Some q => q | None => "" end) |}
  end.

(** [new URLSearchParams(init)] for a string [init]. *)
Definition URLSearchParams_new (init : string) : list (string * string) :=
  UrlEncoded.parse
    (match init with
     | String c r => if Ascii.eqb c "?" then r else init
     | "" => init
     end).

Definition remove_name (name : string) (l : list (string * string)) : list (string * string) :=
  filter (fun p => negb (String.eqb (fst p) name)) l.

(** The list after [set(name, value)]: the first tuple of that name gets
    the value and the others are removed; without one, a tuple is appended. *)
Fixpoint set_pair (name value : string) (l : list (string * string)) : list (string * string) :=
  match l with
  | [] => [(name, value)]
  | (n, v) :: t =>
      if String.eqb n name then (name, value) :: remove_name name t
      else (n, v) :: set_pair name value t
  end.

(** [url.searchParams.set(name, value)], with the update steps that write
    the serialized list back as the URL's query (null when it is empty).
    Names and values are well-formed text, which the conversion to a scalar
    value string leaves as it is. *)
Definition searchParams_set (o : URL) (name value : string) : URL :=
  let l := set_pair name value (searchParams o) in
  let s := UrlEncoded.serialize l in
  {| url := {| front := front (url o);
               query := if UrlEncoded.nonempty s then Some s else None;
               fragment := fragment (url o) |};
     searchParams := l |}.

(** One step of the loop of [appendQueryParams], on the list and on the
    object. *)
Definition set_entry (l : list (string * string)) (p : string * string) :=
  set_pair (fst p) (snd p) l.

Definition set_param (u : URL) (p : string * string) : URL :=
  searchParams_set u (fst p) (snd p).

(** The query of the record is the serialized list of the query object. *)
Definition synced (u : URL) : Prop :=
  query (url u) = Some (UrlEncoded.serialize (searchParams u)).

(** [url.href]. *)
Definition href (o : URL) : string := serialize (url o).

(** *** A host for concrete runs

    A fragment of the host's front parser on which the standard is easy to
    follow: [http://] or [https://], a host made of labels of lower-case
    ASCII letters separated by single dots, and a path of ASCII
    alphanumerics, [-], [_] and [/].  Such input is valid, the host is not a
    number and needs no mapping, the path has no dot segment and nothing to
    encode; an empty path is serialized as [/].  Outside this fragment the
    instance answers [None], which says nothing about the real host; it is
    used for closed examples only. *)

Fixpoint strip_prefix (p s : string) : option string :=
  match p, s with
  | "", _ => Some s
  | String a p', String b s' => if Ascii.eqb a b then strip_prefix p' s' else None
  | String _ _, "" => None
  end.

Fixpoint labels_ok (after_dot : bool) (h : string) : bool :=
  match h with
  | "" => negb after_dot
  | String c r =>
      if is_lower c then labels_ok false r
      else if Ascii.eqb c "." then negb after_dot && labels_ok true r
      else false
  end.

Definition path_char (c : ascii) : bool :=
  is_alnum c || Ascii.eqb c "-" || Ascii.eqb c "_" || Ascii.eqb c "/".

Definition simple_authority_path (scheme rest : string) : option Front :=
  let (host, path) := break_at (Ascii.eqb "/") rest in
  let p := match path with Some (_, p) => p | None => "" end in
  if labels_ok true host && string_forallb path_char p
  then Some {| special := true; front_text := scheme ++ "://" ++ host ++ "/" ++ p |}
  else None.

Definition simple_parse_front (s : string) : option Front :=
  match strip_prefix "https://" s with
  | Some rest => simple_authority_path "https" rest
  | None =>
      match strip_prefix "http://" s with
      | Some rest => simple_authority_path "http" rest
      | None => None
      end
  end.

Definition simple_host : Host := {| parse_front := simple_parse_front |}.

End Url.
Import Url.

(* ================================================================== *)
(** ** The library: src/queryHandler.js *)

Module QueryHandler.

(** The element interfaces the source tests with [instanceof]. *)
Inductive Interface : Type :=
  | HTMLIFrameElement
  | HTMLAnchorElement
  | OtherElement.

Definition Interface_eqb (a b : Interface) : bool :=
  match a, b with
  | HTMLIFrameElement, HTMLIFrameElement => true
  | HTMLAnchorElement, HTMLAnchorElement => true
  | OtherElement, OtherElement => true
  | _, _ => false
  end.

(** An element of the document, with the two attributes the source writes. *)
Record Element : Type :=
  { interface : Interface; attr_src : option string; attr_href : option string }.

(** The host environment: [window.location.search], the URL the page was
    last told to navigate to, and the elements by reference. *)
Record World : Type :=
  { location_search : string;
    location_assigned : option string;
    dom : nat -> option Element }.

(** What a caller may pass where an element is expected: a primitive, an
    element of the document, or an ordinary object, given by the interface
    whose prototype object is on its prototype chain, if any, and by its own
    properties ([Object.create(HTMLIFrameElement.prototype)] is
    [VObject (Some HTMLIFrameElement) []], a plain object [VObject None o]). *)
Inductive Value : Type :=
  | VUndefined
  | VNull
  | VString (s : string)
  | VObject (proto : option Interface) (o : Obj)
  | VElement (ref : nat).

(** [v instanceof i]: whether the prototype object of [i] is on the
    prototype chain of [v].  An element has the chain of its interface, an
    ordinary object the one it was created with, a primitive none. *)
Definition instanceOf (w : World) (v : Value) (i : Interface) : bool :=
  match v with
  | VElement r =>
      match dom w r with
      | Some e => Interface_eqb (interface e) i
      | None => false
      end
  | VObject (Some j) _ => Interface_eqb j i
  | _ => false
  end.

(** [v] is an element of the document that implements [i]. *)
Definition is_element_of (w : World) (v : Value) (i : Interface) : bool :=
  match v with
  | VElement r =>
      match dom w r with
      | Some e => Interface_eqb (interface e) i
      | None => false
      end
  | _ => false
  end.

Definition update_element (w : World) (r : nat) (e : Element) : World :=
  {| location_search := location_search w;
     location_assigned := location_assigned w;
     dom := fun r' => if Nat.eqb r' r then Some e else dom w r' |}.

(** [v.src = s] and [v.href = s].  On an element the attribute is
    written.  An ordinary object that inherits the accessor from the
    prototype of the interface is not an element of it, and the setter
    throws a [TypeError]; any other ordinary object gets an own property,
    which is no part of the world.  Assigning to a property of [undefined] or
    [null] throws a [TypeError]; on a string the assignment does nothing. *)
Definition set_src (v : Value) (s : string) (w : World) : Completion unit * World :=
  match v with
  | VElement r =>
      match dom w r with
      | Some e =>
          (Normal tt,
           update_element w r
             {| interface := interface e; attr_src := Some s; attr_href := attr_href e |})
      | None => (Normal tt, w)
      end
  | VObject (Some HTMLIFrameElement) _ => (Throw AssignmentTypeError, w)
  | VObject _ _ => (Normal tt, w)
  | VString _ => (Normal tt, w)
  | VUndefined | VNull => (Throw AssignmentTypeError, w)
  end.

Definition set_href (v : Value) (s : string) (w : World) : Completion unit * World :=
  match v with
  | VElement r =>
      match dom w r with
      | Some e =>
          (Normal tt,
           update_element w r
             {| interface := interface e; attr_src := attr_src e; attr_href := Some s |})
      | None => (Normal tt, w)
      end
  | VObject (Some HTMLAnchorElement) _ => (Throw AssignmentTypeError, w)
  | VObject _ _ => (Normal tt, w)
  | VString _ => (Normal tt, w)
  | VUndefined | VNull => (Throw AssignmentTypeError, w)
  end.

(** [window.location.href = s]. *)
Definition navigate (s : string) (w : World) : World :=
  {| location_search := location_search w;
     location_assigned := Some s;
     dom := dom w |}.

(** Lines 12-19.  [params.forEach] visits the list in order and calls back
    with [(value, key)]; [result] starts as [{}]. *)
Definition getAllQueryParams (w : World) : Obj :=
  let params := URLSearchParams_new (location_search w) in
  fold_left (fun result p => assign result (fst p) (snd p)) params [].

(** Lines 27-33. *)
Definition appendQueryParams `{Host} (baseUrl : string) (params : Obj) : Completion string :=
  match URL_new baseUrl with
  | None => Throw URLTypeError
  | Some u =>
      Normal
        (href
           (fold_left (fun u p => searchParams_set u (fst p) (snd p))
              (Object_entries params) u))
  end.

(** Lines 40-46. *)
Definition setIframeSrcWithQuery `{Host} (iframeElement : Value) (baseIframeUrl : string)
    (w : World) : Completion unit * World :=
  if negb (instanceOf w iframeElement HTMLIFrameElement) then
    (Throw (Error "Provided element is not a valid iframe"), w)
  else
    let queryParams := getAllQueryParams w in
    match appendQueryParams baseIframeUrl queryParams with
    | Throw e => (Throw e, w)
    | Normal s => set_src iframeElement s w
    end.

(** Lines 52-56. *)
Definition redirectToUrlWithQuery `{Host} (baseUrl : string)
    (w : World) : Completion unit * World :=
  let queryParams := getAllQueryParams w in
  match appendQueryParams baseUrl queryParams with
  | Throw e => (Throw e, w)
  | Normal newUrl => (Normal tt, navigate newUrl w)
  end.

(** Lines 63-69. *)
Definition generateLinkWithQuery `{Host} (baseUrl : string) (anchorElement : Value)
    (w : World) : Completion unit * World :=
  if negb (instanceOf w anchorElement HTMLAnchorElement) then
    (Throw (Error "Provided element is not a valid anchor element"), w)
  else
    let queryParams := getAllQueryParams w in
    match appendQueryParams baseUrl queryParams with
    | Throw e => (Throw e, w)
    | Normal s => set_href anchorElement s w
    end.

End QueryHandler.
Import QueryHandler.

(* ================================================================== *)
(** ** The specification's notions, written from its words *)

Module Spec.

(** The last value a list of pairs gives to [k]. *)
Fixpoint last_value (k : string) (pairs : list (string * string)) : option string :=
  match pairs with
  | [] => None
  | (k', v) :: t =>
      match last_value k t with
      | Some v' => Some v'
      | None => if String.eqb k' k then Some v else None
      end
  end.

(** The QueryParameterMap of a list of pairs (section 3): keys are unique,
    the last occurrence of a repeated key wins, and the entries stand in the
    left-to-right order in which their keys first occur. *)
Fixpoint query_parameter_map (pairs : list (string * string)) : list (string * string) :=
  match pairs with
  | [] => []
  | (k, v) :: t =>
      (k, match last_value k t with Some v' => v' | None => v end)
        :: remove_name k (query_parameter_map t)
  end.

(** Section 4.2, the pre-existing parameters after the merge: in their
    original order, one whose name [params] has carries the value of
    [params] (updated in place) and is not repeated. *)
Fixpoint update_existing (params existing : list (string * string)) : list (string * string) :=
  match existing with
  | [] => []
  | (k, v) :: t =>
      match get_own params k with
      | Some v' => (k, v') :: remove_name k (update_existing params t)
      | None => (k, v) :: update_existing params t
      end
  end.

(** Section 4.2, the newly added parameters: the entries of [params] whose
    name was not present, in the iteration order of [params]. *)
Definition newly_added (params existing : list (string * string)) : list (string * string) :=
  filter (fun p => negb (has_key (fst p) existing)) params.

Definition merged (existing params : list (string * string)) : list (string * string) :=
  (update_existing params existing ++ newly_added params existing)%list.

(** The pairs of a list whose name is [k]. *)
Definition occurrences (k : string) (l : list (string * string)) : list (string * string) :=
  filter (fun p => String.eqb (fst p) k) l.

(** The index of the property an entry belongs to, when its key is one. *)
Definition entry_index (p : string * string) : N :=
  match array_index (fst p) with Some i => i | None => 0%N end.

(** Text in both components of every pair. *)
Definition text_pairs (l : list (string * string)) : Prop :=
  Forall (fun p => well_formed (fst p) /\ well_formed (snd p)) l.

End Spec.
Import Spec.

(* ================================================================== *)
(** ** Stable hosts *)

Definition first_char_ok (p : ascii -> bool) (s : string) : bool :=
  match s with "" => true | String c _ => p c end.

Fixpoint last_char_ok (p : ascii -> bool) (s : string) : bool :=
  match s with
  | "" => true
  | String c "" => p c
  | String _ r => last_char_ok p r
  end.

Definition front_char (c : ascii) : bool :=
  negb (starts_query_or_fragment c) && negb (is_tab_or_newline c).

Definition plain_char (c : ascii) : bool := front_char c && not_c0_or_space c.

(** A serialized front that the parser reads as it stands: no [?], [#],
    tab or newline in it, no C0 control or space at either end. *)
Definition clean_front (t : string) : bool :=
  string_forallb front_char t
  && first_char_ok (fun c => negb (is_c0_or_space c)) t
  && last_char_ok (fun c => negb (is_c0_or_space c)) t.

(** A URL record as the parser leaves it: the host gives its front back,
    and nothing in the query or the fragment is left to encode. *)
Definition settled `{Host} (u : URLRecord) : Prop :=
  parse_front (front_text (front u)) = Some (front u)
  /\ clean_front (front_text (front u)) = true
  /\ match query u with
     | Some q => string_forallb (fun c => negb (query_set_of (front u) c)) q = true
     | None => True
     end
  /\ match fragment u with
     | Some fr => string_forallb (fun c => negb (in_fragment_set c)) fr = true
     | None => True
     end.

(** A host whose front parser accepts its own output and gives it back
    (the parse-serialize round trip of the URL standard). *)
Class StableHost (H : Host) : Prop :=
  front_stable :
    forall s f, parse_front s = Some f ->
      parse_front (front_text f) = Some f /\ clean_front (front_text f) = true.

(** A page whose location has the given search string, with one element. *)
Definition page (search : string) (e : Element) : World :=
  {| location_search := search;
     location_assigned := None;
     dom := fun r => if Nat.eqb r 0 then Some e else None |}.

Definition blank (i : Interface) : Element :=
  {| interface := i; attr_src := None; attr_href := None |}.

(** Case analysis on the 256 bytes. *)
Ltac each_byte c := destruct c as [[] [] [] [] [] [] [] []].

(* ================================================================== *)
(** ** The host algorithms on small inputs *)

Example parse_ex1 :
  UrlEncoded.parse "a=1&&b=x+y%21&c&=d&e=f=g" =
  [("a", "1"); ("b", "x y!"); ("c", ""); ("", "d"); ("e", "f=g")].
Proof. reflexivity. Qed.

Example serialize_ex1 :
  UrlEncoded.serialize [("a b", "1/2"); ("", ""); ("k~", "*-._")] = "a+b=1%2F2&=&k%7E=*-._".
Proof. reflexivity. Qed.

Example utf8_ex1 :
  utf8_decode (String (ascii_of_N 255) "a") = replacement ++ "a".
Proof. reflexivity. Qed.

(* ================================================================== *)
(** ** Lists of pairs: [set], and the merge *)

Section Pairs.

Implicit Types (k n : string) (l t : list (string * string)).

Lemma has_key_In k l : has_key k l = true <-> In k (keys l).
Proof.
  unfold has_key, keys. rewrite existsb_exists, in_map_iff. split.
  - intros [p [Hp He]]. apply String.eqb_eq in He. now exists p.
  - intros [p [He Hp]]. exists p. split; [assumption|]. now apply String.eqb_eq.
Qed.

Lemma has_key_not_In k l : has_key k l = false <-> ~ In k (keys l).
Proof.
  rewrite <- has_key_In. destruct (has_key k l); split; congruence.
Qed.

Lemma has_key_cons k n v l :
  has_key k ((n, v) :: l) = String.eqb n k || has_key k l.
Proof. reflexivity. Qed.

Lemma has_key_app k l t : has_key k (l ++ t) = has_key k l || has_key k t.
Proof. unfold has_key. apply existsb_app. Qed.

Lemma get_own_none k l : get_own l k = None <-> has_key k l = false.
Proof.
  induction l as [|[n v] l IH]; [simpl; tauto|].
  cbn [get_own]. rewrite has_key_cons.
  destruct (String.eqb n k); simpl; [split; discriminate | exact IH].
Qed.

Lemma get_own_some_key k v l : get_own l k = Some v -> has_key k l = true.
Proof.
  intros H. destruct (has_key k l) eqn:E; [reflexivity|].
  apply get_own_none in E. congruence.
Qed.

Lemma get_own_In k v l : get_own l k = Some v -> In (k, v) l.
Proof.
  induction l as [|[n w] l IH]; simpl; [discriminate|].
  destruct (String.eqb_spec n k) as [->|_].
  - intros [= ->]. now left.
  - intros H. right. now apply IH.
Qed.

Lemma In_get_own k v l : NoDup (keys l) -> In (k, v) l -> get_own l k = Some v.
Proof.
  induction l as [|[n w] l IH]; simpl; [tauto|].
  intros Hnd. inversion Hnd as [|? ? Hn Hnd']; subst.
  intros [[= -> ->]|Hin].
  - now rewrite String.eqb_refl.
  - destruct (String.eqb_spec n k) as [->|_]; [|now apply IH].
    exfalso. apply Hn. change (In (fst (k, v)) (map fst l)). now apply in_map.
Qed.

Lemma remove_name_cons k n v l :
  remove_name k ((n, v) :: l) =
  if String.eqb n k then remove_name k l else (n, v) :: remove_name k l.
Proof. unfold remove_name. simpl. now destruct (String.eqb n k). Qed.

Lemma remove_name_app k l t :
  remove_name k (l ++ t) = (remove_name k l ++ remove_name k t)%list.
Proof. apply filter_app. Qed.

Lemma remove_name_comm k n l :
  remove_name k (remove_name n l) = remove_name n (remove_name k l).
Proof.
  induction l as [|[m v] l IH]; [reflexivity|].
  rewrite !remove_name_cons.
  destruct (String.eqb m n) eqn:E1, (String.eqb m k) eqn:E2;
    rewrite ?remove_name_cons, ?E1, ?E2, IH; reflexivity.
Qed.

Lemma remove_name_idem k l : remove_name k (remove_name k l) = remove_name k l.
Proof.
  induction l as [|[m v] l IH]; [reflexivity|].
  rewrite !remove_name_cons. destruct (String.eqb m k) eqn:E; [exact IH|].
  now rewrite remove_name_cons, E, IH.
Qed.

Lemma remove_name_absent k l : has_key k l = false -> remove_name k l = l.
Proof.
  induction l as [|[m v] l IH]; [reflexivity|].
  rewrite has_key_cons, remove_name_cons.
  destruct (String.eqb m k); simpl; [discriminate|]. intros H. now rewrite IH.
Qed.

Lemma has_key_remove_name k n l :
  has_key k (remove_name n l) = negb (String.eqb n k) && has_key k l.
Proof.
  induction l as [|[m v] l IH].
  - simpl. now rewrite andb_false_r.
  - rewrite remove_name_cons, has_key_cons.
    destruct (String.eqb_spec m n) as [->|Hmn].
    + rewrite IH. destruct (String.eqb n k); reflexivity.
    + rewrite has_key_cons, IH.
      destruct (String.eqb_spec m k) as [->|_]; simpl; [|reflexivity].
      destruct (String.eqb_spec n k) as [->|_]; [congruence|reflexivity].
Qed.

(** *** [set_pair] *)

Lemma set_pair_absent k v l : has_key k l = false -> set_pair k v l = (l ++ [(k, v)])%list.
Proof.
  induction l as [|[m w] l IH]; [reflexivity|].
  rewrite has_key_cons. cbn [set_pair app]. destruct (String.eqb m k); simpl; [discriminate|].
  intros H. now rewrite IH.
Qed.

Lemma has_key_set_pair k n v l :
  has_key k (set_pair n v l) = String.eqb n k || has_key k l.
Proof.
  induction l as [|[m w] l IH]; cbn [set_pair].
  - rewrite has_key_cons. reflexivity.
  - destruct (String.eqb_spec m n) as [->|Hmn].
    + rewrite !has_key_cons, has_key_remove_name.
      destruct (String.eqb n k); reflexivity.
    + rewrite !has_key_cons, IH.
      destruct (String.eqb m k), (String.eqb n k); reflexivity.
Qed.

Lemma set_pair_not_nil k v l : set_pair k v l <> [].
Proof. destruct l as [|[m w] l]; simpl; [|destruct (String.eqb m k)]; discriminate. Qed.

Lemma occurrences_cons k n v l :
  occurrences k ((n, v) :: l) =
  if String.eqb n k then (n, v) :: occurrences k l else occurrences k l.
Proof. reflexivity. Qed.

Lemma occurrences_remove_same k l : occurrences k (remove_name k l) = [].
Proof.
  induction l as [|[m w] l IH]; [reflexivity|].
  rewrite remove_name_cons. destruct (String.eqb m k) eqn:E; [exact IH|].
  now rewrite occurrences_cons, E.
Qed.

Lemma occurrences_remove_other k n l :
  n <> k -> occurrences k (remove_name n l) = occurrences k l.
Proof.
  intros Hnk. induction l as [|[m w] l IH]; [reflexivity|].
  rewrite remove_name_cons, occurrences_cons.
  destruct (String.eqb_spec m n) as [->|Hmn].
  - destruct (String.eqb_spec n k); [congruence|exact IH].
  - rewrite occurrences_cons, IH. reflexivity.
Qed.

Lemma occurrences_nil_remove k l : occurrences k l = [] -> remove_name k l = l.
Proof.
  induction l as [|[m w] l IH]; [reflexivity|].
  rewrite occurrences_cons, remove_name_cons.
  destruct (String.eqb m k); [discriminate|]. intros H. now rewrite IH.
Qed.

(** After [set(k, v)] the list holds [k] once, with [v]. *)
Lemma occurrences_set_same k v l : occurrences k (set_pair k v l) = [(k, v)].
Proof.
  induction l as [|[m w] l IH]; cbn [set_pair].
  - now rewrite occurrences_cons, String.eqb_refl.
  - destruct (String.eqb m k) eqn:E.
    + now rewrite occurrences_cons, String.eqb_refl, occurrences_remove_same.
    + now rewrite occurrences_cons, E.
Qed.

(** [set(n, v)] leaves the pairs of every other name as they are. *)
Lemma occurrences_set_other k n v l :
  n <> k -> occurrences k (set_pair n v l) = occurrences k l.
Proof.
  intros Hnk. induction l as [|[m w] l IH]; cbn [set_pair].
  - rewrite occurrences_cons. destruct (String.eqb_spec n k); [congruence|reflexivity].
  - destruct (String.eqb_spec m n) as [->|Hmn].
    + rewrite !occurrences_cons.
      destruct (String.eqb_spec n k); [congruence|].
      now apply occurrences_remove_other.
    + rewrite !occurrences_cons, IH. reflexivity.
Qed.

(** [set(k, v)] does nothing to a list that holds [k] once, with [v]. *)
Lemma set_pair_fixed k v l : occurrences k l = [(k, v)] -> set_pair k v l = l.
Proof.
  induction l as [|[m w] l IH]; [discriminate|].
  cbn [set_pair]. rewrite occurrences_cons. destruct (String.eqb_spec m k) as [->|Hmk].
  - intros [= -> H]. now rewrite occurrences_nil_remove.
  - intros H. now rewrite IH.
Qed.

End Pairs.

Section Merge.

Implicit Types (k n : string) (l t E : list (string * string)).

Lemma update_existing_nil l : update_existing [] l = l.
Proof. induction l as [|[m w] l IH]; [reflexivity|]. simpl. now rewrite IH. Qed.

Lemma update_existing_cons E n w l :
  update_existing E ((n, w) :: l) =
  match get_own E n with
  | Some v' => (n, v') :: remove_name n (update_existing E l)
  | None => (n, w) :: update_existing E l
  end.
Proof. reflexivity. Qed.

Lemma get_own_cons k v E n :
  get_own ((k, v) :: E) n = if String.eqb k n then Some v else get_own E n.
Proof. reflexivity. Qed.

Lemma update_existing_remove k v E t :
  has_key k E = false ->
  update_existing E (remove_name k t) = remove_name k (update_existing ((k, v) :: E) t).
Proof.
  intros HE. induction t as [|[m w] t IH]; [reflexivity|].
  rewrite remove_name_cons, update_existing_cons, get_own_cons.
  destruct (String.eqb_spec m k) as [->|Hmk].
  - rewrite String.eqb_refl, remove_name_cons, String.eqb_refl, remove_name_idem.
    exact IH.
  - destruct (String.eqb_spec k m) as [->|_]; [congruence|].
    rewrite update_existing_cons.
    destruct (get_own E m) as [v'|]; rewrite remove_name_cons;
      destruct (String.eqb_spec m k); try congruence.
    now rewrite IH, remove_name_comm.
Qed.

Lemma update_existing_set_present k v E l :
  has_key k E = false -> has_key k l = true ->
  update_existing E (set_pair k v l) = update_existing ((k, v) :: E) l.
Proof.
  intros HE. induction l as [|[m w] l IH]; [discriminate|].
  rewrite has_key_cons. cbn [set_pair].
  rewrite (update_existing_cons (_ :: E)), get_own_cons.
  destruct (String.eqb_spec m k) as [->|Hmk].
  - intros _. cbv iota. rewrite String.eqb_refl, update_existing_cons.
    apply get_own_none in HE. rewrite HE. f_equal.
    apply update_existing_remove. now apply get_own_none.
  - cbv iota. rewrite orb_false_l. intros Hl.
    destruct (String.eqb_spec k m) as [->|_]; [congruence|].
    rewrite update_existing_cons, (IH Hl). reflexivity.
Qed.

Lemma update_existing_skip k v E l :
  has_key k l = false -> update_existing ((k, v) :: E) l = update_existing E l.
Proof.
  induction l as [|[m w] l IH]; [reflexivity|].
  rewrite has_key_cons, !update_existing_cons, get_own_cons.
  destruct (String.eqb_spec m k) as [->|Hmk]; simpl; [discriminate|].
  intros Hl. destruct (String.eqb_spec k m) as [->|_]; [congruence|].
  now rewrite (IH Hl).
Qed.

Lemma update_existing_snoc k v E l :
  has_key k E = false ->
  update_existing E (l ++ [(k, v)]) = (update_existing E l ++ [(k, v)])%list.
Proof.
  intros HE. induction l as [|[m w] l IH].
  - simpl. apply get_own_none in HE. now rewrite HE.
  - rewrite <- app_comm_cons, !update_existing_cons, IH.
    destruct (get_own E m) as [v'|] eqn:Hm; [|reflexivity].
    rewrite remove_name_app, <- app_comm_cons. do 2 f_equal.
    rewrite remove_name_cons.
    destruct (String.eqb_spec k m) as [->|_]; [|reflexivity].
    apply get_own_some_key in Hm. congruence.
Qed.

Lemma newly_added_set k v E l :
  has_key k E = false -> newly_added E (set_pair k v l) = newly_added E l.
Proof.
  intros HE. unfold newly_added. apply filter_ext_in. intros [m w] Hin.
  cbn [fst]. rewrite has_key_set_pair.
  destruct (String.eqb_spec k m) as [->|_]; [|reflexivity].
  exfalso. apply has_key_not_In in HE. apply HE.
  change (In (fst (m, w)) (map fst E)). now apply in_map.
Qed.

Lemma merged_step k v E l :
  has_key k E = false -> merged (set_pair k v l) E = merged l ((k, v) :: E).
Proof.
  intros HE. unfold merged. rewrite (newly_added_set _ _ _ _ HE).
  destruct (has_key k l) eqn:Hl.
  - rewrite (update_existing_set_present _ _ _ _ HE Hl).
    unfold newly_added at 2. cbn [filter fst]. now rewrite Hl.
  - rewrite (set_pair_absent _ _ _ Hl), (update_existing_snoc _ _ _ _ HE).
    rewrite (update_existing_skip _ _ _ _ Hl).
    unfold newly_added at 2. cbn [filter fst]. rewrite Hl. cbn [negb].
    now rewrite <- app_assoc.
Qed.

(** Setting the entries one after the other is the merge of section 4.2. *)
Lemma fold_set_merged E : forall l,
  NoDup (keys E) ->
  fold_left (fun l p => set_pair (fst p) (snd p) l) E l = merged l E.
Proof.
  induction E as [|[k v] E IH]; intros l Hnd.
  - unfold merged. cbn [fold_left newly_added filter].
    now rewrite update_existing_nil, app_nil_r.
  - inversion Hnd as [|? ? Hk Hnd']; subst. cbn [fold_left fst snd].
    rewrite (IH _ Hnd'). apply merged_step. now apply has_key_not_In.
Qed.

(** The merge keeps the pairs of the names the entries do not have ... *)
Lemma occurrences_fold_other E : forall l k,
  has_key k E = false ->
  occurrences k (fold_left (fun l p => set_pair (fst p) (snd p) l) E l) = occurrences k l.
Proof.
  induction E as [|[n v] E IH]; intros l k HE; [reflexivity|].
  rewrite has_key_cons in HE. apply orb_false_iff in HE as [Hn HE].
  cbn [fold_left fst snd]. rewrite (IH _ _ HE).
  apply occurrences_set_other. now apply String.eqb_neq.
Qed.

(** ... and holds each name of the entries once, with the entry's value. *)
Lemma occurrences_fold_same E : forall l k v,
  NoDup (keys E) -> In (k, v) E ->
  occurrences k (fold_left (fun l p => set_pair (fst p) (snd p) l) E l) = [(k, v)].
Proof.
  induction E as [|[n w] E IH]; intros l k v Hnd Hin; [destruct Hin|].
  inversion Hnd as [|? ? Hn Hnd']; subst. cbn [fold_left fst snd].
  destruct Hin as [[= -> ->]|Hin].
  - rewrite occurrences_fold_other by now apply has_key_not_In.
    apply occurrences_set_same.
  - now apply IH.
Qed.

(** Setting the same entries again changes nothing. *)
Lemma fold_set_fixed E : forall l,
  (forall k v, In (k, v) E -> occurrences k l = [(k, v)]) ->
  fold_left (fun l p => set_pair (fst p) (snd p) l) E l = l.
Proof.
  induction E as [|[n w] E IH]; intros l H; [reflexivity|].
  cbn [fold_left fst snd]. rewrite set_pair_fixed by (apply H; now left).
  apply IH. intros k v Hin. apply H. now right.
Qed.

Lemma fold_set_idempotent E l :
  NoDup (keys E) ->
  let f := fold_left (fun l p => set_pair (fst p) (snd p) l) E in
  f (f l) = f l.
Proof.
  intros Hnd f. apply fold_set_fixed. intros k v Hin.
  now apply occurrences_fold_same.
Qed.

End Merge.

(* ================================================================== *)
(** ** Objects: assignment and the order of [Object.entries] *)

Section Objects.

Implicit Types (k n : string) (l t : list (string * string)) (o : Obj).

Lemma define_own_cons o n w k v :
  define_own ((n, w) :: o) k v =
  if String.eqb n k then (k, v) :: o else (n, w) :: define_own o k v.
Proof. reflexivity. Qed.

Lemma remove_name_define_own_same k v o :
  remove_name k (define_own o k v) = remove_name k o.
Proof.
  induction o as [|[m w] o IH].
  - cbn [define_own]. rewrite remove_name_cons, String.eqb_refl. reflexivity.
  - rewrite define_own_cons. destruct (String.eqb_spec m k) as [->|Hmk].
    + now rewrite !remove_name_cons, String.eqb_refl.
    + rewrite !remove_name_cons. destruct (String.eqb m k); [exact IH|now rewrite IH].
Qed.

Lemma remove_name_define_own_other k n v o :
  n <> k -> remove_name n (define_own o k v) = define_own (remove_name n o) k v.
Proof.
  intros Hnk. induction o as [|[m w] o IH].
  - cbn [define_own]. rewrite remove_name_cons.
    destruct (String.eqb_spec k n); [congruence|reflexivity].
  - rewrite define_own_cons, (remove_name_cons n m).
    destruct (String.eqb_spec m k) as [->|Hmk].
    + rewrite remove_name_cons.
      destruct (String.eqb_spec k n); [congruence|].
      now rewrite define_own_cons, String.eqb_refl.
    + rewrite remove_name_cons. destruct (String.eqb_spec m n) as [->|Hmn]; [exact IH|].
      rewrite define_own_cons. destruct (String.eqb_spec m k); [congruence|].
      now rewrite IH.
Qed.

Lemma last_value_snoc_same k v l : last_value k (l ++ [(k, v)]) = Some v.
Proof.
  induction l as [|[m w] l IH]; simpl.
  - now rewrite String.eqb_refl.
  - now rewrite IH.
Qed.

Lemma last_value_snoc_other k n v l :
  n <> k -> last_value n (l ++ [(k, v)]) = last_value n l.
Proof.
  intros Hnk. induction l as [|[m w] l IH]; simpl.
  - destruct (String.eqb_spec k n); [congruence|reflexivity].
  - now rewrite IH.
Qed.

Lemma query_parameter_map_cons k v l :
  query_parameter_map ((k, v) :: l) =
  (k, match last_value k l with Some v' => v' | None => v end)
    :: remove_name k (query_parameter_map l).
Proof. reflexivity. Qed.

(** One more pair at the end of the query string writes its key in the map. *)
Lemma query_parameter_map_snoc k v l :
  query_parameter_map (l ++ [(k, v)]) = define_own (query_parameter_map l) k v.
Proof.
  induction l as [|[m w] l IH]; [reflexivity|].
  rewrite <- app_comm_cons, !query_parameter_map_cons, define_own_cons, IH.
  destruct (String.eqb_spec m k) as [->|Hmk].
  - now rewrite last_value_snoc_same, remove_name_define_own_same.
  - rewrite (last_value_snoc_other _ _ _ _ Hmk).
    now rewrite (remove_name_define_own_other _ _ _ _ Hmk).
Qed.

Lemma has_key_query_parameter_map k l :
  has_key k (query_parameter_map l) = has_key k l.
Proof.
  induction l as [|[m w] l IH]; [reflexivity|].
  rewrite query_parameter_map_cons, !has_key_cons, has_key_remove_name, IH.
  destruct (String.eqb m k); reflexivity.
Qed.

Lemma query_parameter_map_NoDup l : NoDup (keys (query_parameter_map l)).
Proof.
  induction l as [|[m w] l IH]; [constructor|].
  rewrite query_parameter_map_cons. cbn [keys map fst]. constructor.
  - apply has_key_not_In. rewrite has_key_remove_name, String.eqb_refl. reflexivity.
  - unfold remove_name. clear -IH. induction (query_parameter_map l) as [|[a b] q IHq];
      [constructor|].
    inversion IH as [|? ? Ha Hq]; subst. cbn [filter fst].
    destruct (negb (String.eqb a m)); [|now apply IHq].
    cbn [map fst]. constructor; [|now apply IHq].
    intros Hin. apply Ha. apply in_map_iff in Hin as [p [Hp Hin]].
    apply filter_In in Hin as [Hin _]. apply in_map_iff. now exists p.
Qed.

(** The object built by the [forEach] loop of [getAllQueryParams]. *)
Lemma fold_assign_map l :
  fold_left (fun result p => assign result (fst p) (snd p)) l [] =
  query_parameter_map (remove_name "__proto__" l).
Proof.
  induction l as [|[k v] l IH] using rev_ind; [reflexivity|].
  rewrite fold_left_app, IH, remove_name_app. cbn [fold_left fst snd].
  unfold assign. rewrite has_key_query_parameter_map, has_key_remove_name.
  rewrite remove_name_cons. cbn [negb andb remove_name filter].
  destruct (String.eqb_spec k "__proto__") as [->|Hk].
  - rewrite String.eqb_refl. cbn [negb andb]. now rewrite app_nil_r.
  - rewrite andb_false_r. now rewrite query_parameter_map_snoc.
Qed.

Lemma getAllQueryParams_map w :
  getAllQueryParams w =
  query_parameter_map (remove_name "__proto__" (URLSearchParams_new (location_search w))).
Proof. apply fold_assign_map. Qed.

Lemma getAllQueryParams_wf w : wf (getAllQueryParams w).
Proof. rewrite getAllQueryParams_map. apply query_parameter_map_NoDup. Qed.

(** *** The order of the entries *)

Lemma insert_by_index_perm i p (s : list (N * (string * string))) :
  Permutation (insert_by_index i p s) ((i, p) :: s).
Proof.
  induction s as [|[j q] s IH]; [reflexivity|]. cbn [insert_by_index].
  destruct (i <=? j)%N; [reflexivity|].
  rewrite IH. apply perm_swap.
Qed.

Lemma sort_by_index_perm (s : list (N * (string * string))) :
  Permutation (sort_by_index s) s.
Proof.
  induction s as [|[i p] s IH]; [reflexivity|]. cbn [sort_by_index].
  rewrite insert_by_index_perm. now constructor.
Qed.

Lemma insert_by_index_sorted i p (s : list (N * (string * string))) :
  StronglySorted index_le s -> StronglySorted index_le (insert_by_index i p s).
Proof.
  induction 1 as [|[j q] s Hs IH Hall]; cbn [insert_by_index].
  - repeat constructor.
  - destruct (N.leb_spec i j) as [Hij|Hij].
    + constructor; [now constructor|]. constructor; [exact Hij|].
      eapply Forall_impl; [|exact Hall]. intros a Ha. unfold index_le in *.
      cbn [fst] in *. lia.
    + constructor; [exact IH|].
      eapply Permutation_Forall; [symmetry; apply insert_by_index_perm|].
      constructor; [|exact Hall]. unfold index_le. cbn [fst]. lia.
Qed.

Lemma sort_by_index_sorted (s : list (N * (string * string))) :
  StronglySorted index_le (sort_by_index s).
Proof.
  induction s as [|[i p] s IH]; [constructor|]. cbn [sort_by_index].
  now apply insert_by_index_sorted.
Qed.

Lemma indexed_spec o :
  map snd (indexed o) = filter (fun p => is_array_index (fst p)) o
  /\ Forall (fun a => fst a = entry_index (snd a)) (indexed o).
Proof.
  induction o as [|p o [IH1 IH2]]; [split; [reflexivity|constructor]|].
  cbn [indexed filter]. unfold is_array_index, entry_index in *.
  destruct (array_index (fst p)) as [i|] eqn:E.
  - split; [cbn [map snd]; now rewrite IH1|].
    constructor; [|exact IH2]. cbn [fst snd]. now rewrite E.
  - now split.
Qed.

Lemma indexed_none o :
  (forall k, In k (keys o) -> is_array_index k = false) -> indexed o = [].
Proof.
  induction o as [|p o IH]; [reflexivity|]. intros H. cbn [indexed].
  assert (Hp : is_array_index (fst p) = false) by (apply H; now left).
  unfold is_array_index in Hp. destruct (array_index (fst p)); [discriminate|].
  apply IH. intros k Hk. apply H. now right.
Qed.

(** [Object.entries]: the array indices in ascending order, then the other
    keys as they were created. *)
Lemma Object_entries_order o :
  exists idx,
    Object_entries o = (idx ++ filter (fun p => negb (is_array_index (fst p))) o)%list
    /\ Permutation idx (filter (fun p => is_array_index (fst p)) o)
    /\ StronglySorted (fun p q => (entry_index p <= entry_index q)%N) idx.
Proof.
  exists (map snd (sort_by_index (indexed o))). split; [reflexivity|].
  destruct (indexed_spec o) as [Hmap Hall]. split.
  - rewrite <- Hmap. apply Permutation_map, sort_by_index_perm.
  - assert (Hall' : Forall (fun a => fst a = entry_index (snd a)) (sort_by_index (indexed o)))
      by (eapply Permutation_Forall; [symmetry; apply sort_by_index_perm|exact Hall]).
    pose proof (sort_by_index_sorted (indexed o)) as Hs.
    induction Hs as [|a s Hs IH Ha]; [constructor|].
    inversion Hall' as [|? ? Hfa Hfs]; subst. cbn [map]. constructor; [now apply IH|].
    apply Forall_map. rewrite Forall_forall in *. intros b Hb.
    specialize (Ha b Hb). specialize (Hfs b Hb). unfold index_le in Ha. lia.
Qed.

Lemma Object_entries_no_index o :
  (forall k, In k (keys o) -> is_array_index k = false) -> Object_entries o = o.
Proof.
  intros H. unfold Object_entries. rewrite (indexed_none _ H). cbn [sort_by_index map app].
  induction o as [|p o IH]; [reflexivity|]. cbn [filter].
  rewrite (H (fst p)) by now left. cbn [negb]. f_equal. apply IH.
  intros k Hk. apply H. now right.
Qed.

Lemma Object_entries_perm o : Permutation (Object_entries o) o.
Proof.
  unfold Object_entries. rewrite (Permutation_map snd (sort_by_index_perm _)).
  rewrite (proj1 (indexed_spec o)).
  induction o as [|p o IH]; [reflexivity|]. cbn [filter].
  destruct (is_array_index (fst p)); cbn [negb].
  - now constructor.
  - rewrite <- Permutation_middle. now constructor.
Qed.

Lemma Object_entries_NoDup o : wf o -> NoDup (keys (Object_entries o)).
Proof.
  unfold wf, keys. intros H.
  eapply Permutation_NoDup; [|exact H].
  symmetry. apply Permutation_map, Object_entries_perm.
Qed.

Lemma Object_entries_nil o : Object_entries o = [] -> o = [].
Proof.
  intros H. apply Permutation_nil. rewrite <- H. apply Object_entries_perm.
Qed.

End Objects.

(* ================================================================== *)
(** ** Strings *)

Section Strings.

Implicit Types (s t : string) (c : ascii) (p : ascii -> bool).

Lemma string_app_assoc s t r : (s ++ t) ++ r = s ++ (t ++ r).
Proof. induction s as [|c s IH]; [reflexivity|]. simpl. now rewrite IH. Qed.

Lemma string_app_nil_r s : s ++ "" = s.
Proof. induction s as [|c s IH]; [reflexivity|]. simpl. now rewrite IH. Qed.

Lemma string_forallb_app p s t :
  string_forallb p (s ++ t) = string_forallb p s && string_forallb p t.
Proof.
  induction s as [|c s IH]; [reflexivity|]. simpl. now rewrite IH, andb_assoc.
Qed.

Lemma string_forallb_impl p q s :
  (forall c, p c = true -> q c = true) ->
  string_forallb p s = true -> string_forallb q s = true.
Proof.
  intros Hpq. induction s as [|c s IH]; [reflexivity|]. simpl.
  intros H. apply andb_true_iff in H as [Hc Hs].
  now rewrite (Hpq _ Hc), (IH Hs).
Qed.

Lemma string_forallb_flat_map p (f : ascii -> string) s :
  (forall c, string_forallb p (f c) = true) ->
  string_forallb p (string_flat_map f s) = true.
Proof.
  intros Hf. induction s as [|c s IH]; [reflexivity|]. simpl.
  now rewrite string_forallb_app, Hf, IH.
Qed.

Lemma string_flat_map_id p (f : ascii -> string) s :
  (forall c, p c = true -> f c = String c "") ->
  string_forallb p s = true -> string_flat_map f s = s.
Proof.
  intros Hf. induction s as [|c s IH]; [reflexivity|]. simpl.
  intros H. apply andb_true_iff in H as [Hc Hs].
  now rewrite (Hf _ Hc), (IH Hs).
Qed.

Lemma string_filter_id p s : string_forallb p s = true -> string_filter p s = s.
Proof.
  induction s as [|c s IH]; [reflexivity|]. simpl.
  intros H. apply andb_true_iff in H as [Hc Hs]. now rewrite Hc, (IH Hs).
Qed.

Lemma break_at_none p s :
  string_forallb (fun c => negb (p c)) s = true -> break_at p s = (s, None).
Proof.
  induction s as [|c s IH]; [reflexivity|]. simpl.
  intros H. apply andb_true_iff in H as [Hc Hs].
  apply negb_true_iff in Hc. now rewrite Hc, (IH Hs).
Qed.

Lemma break_at_app p s c t :
  string_forallb (fun c => negb (p c)) s = true -> p c = true ->
  break_at p (s ++ String c t) = (s, Some (c, t)).
Proof.
  intros Hs Hc. induction s as [|d s IH]; simpl.
  - now rewrite Hc.
  - simpl in Hs. apply andb_true_iff in Hs as [Hd Hs].
    apply negb_true_iff in Hd. now rewrite Hd, (IH Hs).
Qed.

Lemma split_on_single c s :
  string_forallb (fun d => negb (Ascii.eqb d c)) s = true -> split_on c s = [s].
Proof.
  induction s as [|d s IH]; [reflexivity|]. simpl.
  intros H. apply andb_true_iff in H as [Hd Hs].
  apply negb_true_iff in Hd. now rewrite Hd, (IH Hs).
Qed.

Lemma split_on_app c s t :
  string_forallb (fun d => negb (Ascii.eqb d c)) s = true ->
  split_on c (s ++ String c t) = s :: split_on c t.
Proof.
  induction s as [|d s IH]; simpl.
  - now rewrite Ascii.eqb_refl.
  - intros H. apply andb_true_iff in H as [Hd Hs].
    apply negb_true_iff in Hd. now rewrite Hd, (IH Hs).
Qed.

Lemma drop_while_first p s :
  first_char_ok (fun c => negb (p c)) s = true -> drop_while p s = s.
Proof.
  destruct s as [|c s]; [reflexivity|]. simpl. intros H.
  apply negb_true_iff in H. now rewrite H.
Qed.

Lemma drop_while_end_last p s :
  last_char_ok (fun c => negb (p c)) s = true -> drop_while_end p s = s.
Proof.
  induction s as [|c s IH]; [reflexivity|].
  destruct s as [|d s].
  - simpl. intros H. apply negb_true_iff in H. now rewrite H.
  - intros H. change (last_char_ok (fun c => negb (p c)) (String d s) = true) in H.
    cbn [drop_while_end]. cbn [drop_while_end] in IH. rewrite (IH H).
    destruct (drop_while_end p s); reflexivity.
Qed.

Lemma first_char_ok_app p s t :
  first_char_ok p s = true -> first_char_ok p t = true ->
  first_char_ok p (s ++ t) = true.
Proof. destruct s; simpl; auto. Qed.

Lemma last_char_ok_app p s t :
  last_char_ok p s = true -> last_char_ok p t = true ->
  last_char_ok p (s ++ t) = true.
Proof.
  intros Hs Ht. induction s as [|c s IH]; [exact Ht|].
  destruct s as [|d s].
  - simpl. destruct t; [exact Hs|exact Ht].
  - change (last_char_ok p (String d s) = true) in Hs.
    change (last_char_ok p (String d s ++ t) = true). now apply IH.
Qed.

Lemma last_char_ok_forallb p s : string_forallb p s = true -> last_char_ok p s = true.
Proof.
  induction s as [|c s IH]; [reflexivity|]. intros H. simpl in H.
  apply andb_true_iff in H as [Hc Hs]. destruct s; [exact Hc|]. now apply IH.
Qed.

Lemma last_char_ok_cons p c s :
  s <> "" -> last_char_ok p (String c s) = last_char_ok p s.
Proof. destruct s; [congruence|reflexivity]. Qed.

End Strings.

(* ================================================================== *)
(** ** UTF-8: decoded text is well formed *)

Section Utf8Facts.

Lemma utf8_decode_cons b0 r0 :
  utf8_decode (String b0 r0) =
  if (code b0 <=? 127)%N then String b0 (utf8_decode r0)
  else if in_range 194 223 b0 then
    match r0 with
    | "" => replacement
    | String b1 r1 =>
        if is_cont b1 then String b0 (String b1 (utf8_decode r1))
        else replacement ++ utf8_decode r0
    end
  else if in_range 224 239 b0 then
    match r0 with
    | "" => replacement
    | String b1 r1 =>
        if in_range (lower3 b0) (upper3 b0) b1 then
          match r1 with
          | "" => replacement
          | String b2 r2 =>
              if is_cont b2
              then String b0 (String b1 (String b2 (utf8_decode r2)))
              else replacement ++ utf8_decode r1
          end
        else replacement ++ utf8_decode r0
    end
  else if in_range 240 244 b0 then
    match r0 with
    | "" => replacement
    | String b1 r1 =>
        if in_range (lower4 b0) (upper4 b0) b1 then
          match r1 with
          | "" => replacement
          | String b2 r2 =>
              if is_cont b2 then
                match r2 with
                | "" => replacement
                | String b3 r3 =>
                    if is_cont b3
                    then String b0 (String b1 (String b2 (String b3 (utf8_decode r3))))
                    else replacement ++ utf8_decode r2
                end
              else replacement ++ utf8_decode r1
          end
        else replacement ++ utf8_decode r0
    end
  else replacement ++ utf8_decode r0.
Proof. reflexivity. Qed.

Lemma utf8_decode_replacement t :
  utf8_decode (replacement ++ t) = replacement ++ utf8_decode t.
Proof. reflexivity. Qed.

Lemma utf8_decode_replacement_end : utf8_decode replacement = replacement.
Proof. reflexivity. Qed.

Lemma utf8_decode_idempotent_upto n : forall s,
  String.length s <= n -> utf8_decode (utf8_decode s) = utf8_decode s.
Proof.
  induction n as [|n IH]; intros s Hn.
  - destruct s; [reflexivity|cbn [String.length] in Hn |- *; lia].
  - destruct s as [|b0 r0]; [reflexivity|].
    assert (H0 : utf8_decode (utf8_decode r0) = utf8_decode r0)
      by (apply IH; cbn [String.length] in Hn |- *; lia).
    rewrite (utf8_decode_cons b0 r0).
    destruct (code b0 <=? 127)%N eqn:E0.
    { rewrite utf8_decode_cons, E0. now rewrite H0. }
    destruct (in_range 194 223 b0) eqn:E1.
    { destruct r0 as [|b1 r1]; [reflexivity|].
      destruct (is_cont b1) eqn:C1; [|now rewrite utf8_decode_replacement, H0].
      rewrite (utf8_decode_cons b0), E0, E1, C1.
      rewrite (IH r1) by (cbn [String.length] in Hn |- *; lia). reflexivity. }
    destruct (in_range 224 239 b0) eqn:E2.
    { destruct r0 as [|b1 r1]; [reflexivity|].
      destruct (in_range (lower3 b0) (upper3 b0) b1) eqn:C1;
        [|now rewrite utf8_decode_replacement, H0].
      destruct r1 as [|b2 r2]; [reflexivity|].
      assert (H1 : utf8_decode (utf8_decode (String b2 r2)) = utf8_decode (String b2 r2))
        by (apply IH; cbn [String.length] in Hn |- *; lia).
      destruct (is_cont b2) eqn:C2; [|now rewrite utf8_decode_replacement, H1].
      rewrite (utf8_decode_cons b0), E0, E1, E2, C1, C2.
      rewrite (IH r2) by (cbn [String.length] in Hn |- *; lia). reflexivity. }
    destruct (in_range 240 244 b0) eqn:E3;
      [|now rewrite utf8_decode_replacement, H0].
    destruct r0 as [|b1 r1]; [reflexivity|].
    destruct (in_range (lower4 b0) (upper4 b0) b1) eqn:C1;
      [|now rewrite utf8_decode_replacement, H0].
    destruct r1 as [|b2 r2]; [reflexivity|].
    assert (H1 : utf8_decode (utf8_decode (String b2 r2)) = utf8_decode (String b2 r2))
      by (apply IH; cbn [String.length] in Hn |- *; lia).
    destruct (is_cont b2) eqn:C2; [|now rewrite utf8_decode_replacement, H1].
    destruct r2 as [|b3 r3]; [reflexivity|].
    assert (H2 : utf8_decode (utf8_decode (String b3 r3)) = utf8_decode (String b3 r3))
      by (apply IH; cbn [String.length] in Hn |- *; lia).
    destruct (is_cont b3) eqn:C3; [|now rewrite utf8_decode_replacement, H2].
    rewrite (utf8_decode_cons b0), E0, E1, E2, E3, C1, C2, C3.
    rewrite (IH r3) by (cbn [String.length] in Hn |- *; lia). reflexivity.
Qed.

(** What the decoder gives is text: decoding it again changes nothing. *)
Lemma utf8_decode_well_formed s : well_formed (utf8_decode s).
Proof. unfold well_formed. now apply (utf8_decode_idempotent_upto (String.length s)). Qed.

End Utf8Facts.

(* ================================================================== *)
(** ** The urlencoded parser undoes the serializer *)

Section UrlEncodedFacts.

Import UrlEncoded.

Lemma serialize_byte_chars c : string_forallb is_output_char (serialize_byte c) = true.
Proof. each_byte c; reflexivity. Qed.

Lemma serialize_string_chars s : string_forallb is_output_char (serialize_string s) = true.
Proof. apply string_forallb_flat_map, serialize_byte_chars. Qed.

Lemma decode_serialize_byte c t :
  percent_decode (plus_to_space (serialize_byte c ++ t)) =
  String c (percent_decode (plus_to_space t)).
Proof. each_byte c; reflexivity. Qed.

Lemma decode_serialize_string s : forall t,
  percent_decode (plus_to_space (serialize_string s ++ t)) =
  s ++ percent_decode (plus_to_space t).
Proof.
  induction s as [|c s IH]; intros t; [reflexivity|].
  unfold serialize_string. cbn [string_flat_map].
  rewrite string_app_assoc, decode_serialize_byte. cbn [append]. f_equal. apply IH.
Qed.

Lemma decode_serialize s : percent_decode (plus_to_space (serialize_string s)) = s.
Proof.
  rewrite <- (string_app_nil_r (serialize_string s)), decode_serialize_string.
  apply string_app_nil_r.
Qed.

Lemma output_char_not_eq c : is_output_char c = true -> negb (Ascii.eqb "=" c) = true.
Proof. each_byte c; intros H; (reflexivity || discriminate H). Qed.

Lemma output_char_query c : is_output_char c = true -> is_query_char c = true.
Proof. unfold is_query_char. now intros ->. Qed.

Lemma query_char_not_amp c :
  is_output_char c || Ascii.eqb c "=" = true -> negb (Ascii.eqb c "&") = true.
Proof. each_byte c; intros H; (reflexivity || discriminate H). Qed.

Lemma serialize_pair_eq p :
  serialize_pair p = serialize_string (fst p) ++ String "=" (serialize_string (snd p)).
Proof. reflexivity. Qed.

Lemma parse_serialize_pair p :
  parse_pair (serialize_pair p) = (utf8_decode (fst p), utf8_decode (snd p)).
Proof.
  unfold parse_pair. rewrite serialize_pair_eq, break_at_app.
  - now rewrite !decode_serialize.
  - eapply string_forallb_impl; [apply output_char_not_eq|apply serialize_string_chars].
  - reflexivity.
Qed.

Lemma serialize_pair_no_amp p :
  string_forallb (fun d => negb (Ascii.eqb d "&")) (serialize_pair p) = true.
Proof.
  rewrite serialize_pair_eq, string_forallb_app. cbn [string_forallb].
  apply andb_true_iff. split; [|apply andb_true_iff; split; [reflexivity|]].
  all: eapply string_forallb_impl; [|apply serialize_string_chars].
  all: intros c Hc; apply query_char_not_amp; now rewrite Hc.
Qed.

Lemma serialize_pair_nonempty p : nonempty (serialize_pair p) = true.
Proof. rewrite serialize_pair_eq. now destruct (serialize_string (fst p)). Qed.

Lemma serialize_cons p q l :
  serialize (p :: q :: l) = serialize_pair p ++ String "&" (serialize (q :: l)).
Proof. reflexivity. Qed.

Lemma serialize_nonempty l : l <> [] -> nonempty (serialize l) = true.
Proof.
  destruct l as [|p [|q l]]; [congruence| |]; intros _.
  - apply serialize_pair_nonempty.
  - rewrite serialize_cons, serialize_pair_eq. now destruct (serialize_string (fst p)).
Qed.

Lemma serialize_chars l : string_forallb is_query_char (serialize l) = true.
Proof.
  assert (Hp : forall p, string_forallb is_query_char (serialize_pair p) = true).
  { intros p. rewrite serialize_pair_eq, string_forallb_app. cbn [string_forallb].
    apply andb_true_iff. split; [|apply andb_true_iff; split; [reflexivity|]].
    all: eapply string_forallb_impl; [apply output_char_query|apply serialize_string_chars]. }
  induction l as [|p [|q l] IH]; [reflexivity|apply Hp|].
  rewrite serialize_cons, string_forallb_app, Hp. cbn [string_forallb andb].
  exact IH.
Qed.

Lemma split_serialize l :
  filter nonempty (split_on "&" (serialize l)) = map serialize_pair l.
Proof.
  induction l as [|p [|q l] IH]; [reflexivity| |].
  - cbn [serialize map]. rewrite split_on_single by apply serialize_pair_no_amp.
    cbn [filter]. now rewrite serialize_pair_nonempty.
  - rewrite serialize_cons, split_on_app by apply serialize_pair_no_amp.
    cbn [filter]. rewrite serialize_pair_nonempty, IH. reflexivity.
Qed.

(** Parsing a serialized list gives the list back, each string decoded. *)
Lemma parse_serialize l :
  parse (serialize l) = map (fun p => (utf8_decode (fst p), utf8_decode (snd p))) l.
Proof.
  unfold parse. rewrite split_serialize, map_map.
  apply map_ext. intros p. apply parse_serialize_pair.
Qed.

Lemma parse_serialize_text l : text_pairs l -> parse (serialize l) = l.
Proof.
  intros H. rewrite parse_serialize. induction H as [|[n v] l [Hn Hv] _ IH]; [reflexivity|].
  cbn [map fst snd] in *. unfold well_formed in Hn, Hv. now rewrite Hn, Hv, IH.
Qed.

Lemma parse_text s : text_pairs (parse s).
Proof.
  unfold parse, text_pairs. apply Forall_map, Forall_forall. intros x _.
  unfold parse_pair. destruct (break_at (Ascii.eqb "=") x) as [n r]. cbn [fst snd].
  split; apply utf8_decode_well_formed.
Qed.

Lemma set_pair_text k v l :
  well_formed k -> well_formed v -> text_pairs l -> text_pairs (set_pair k v l).
Proof.
  intros Hk Hv Hl. induction Hl as [|[n w] l Hp Hl IH]; cbn [set_pair].
  - now repeat constructor.
  - destruct (String.eqb n k).
    + constructor; [now split|]. unfold remove_name.
      apply Forall_forall. intros x Hx. apply filter_In in Hx as [Hx _].
      revert x Hx. now apply Forall_forall.
    + now constructor.
Qed.

End UrlEncodedFacts.

(* ================================================================== *)
(** ** Parsing a serialized URL *)

Section UrlFacts.

Context {H : Host}.

Lemma percent_encode_chars (set : ascii -> bool) s :
  (forall c, string_forallb (fun d => negb (set d))
               (if set c then percent_encode_byte c else String c "") = true) ->
  string_forallb (fun d => negb (set d)) (percent_encode set s) = true.
Proof. intros Hc. now apply string_forallb_flat_map. Qed.

Lemma query_set_chars c :
  string_forallb (fun d => negb (in_query_set d))
    (if in_query_set c then percent_encode_byte c else String c "") = true.
Proof. each_byte c; reflexivity. Qed.

Lemma special_query_set_chars c :
  string_forallb (fun d => negb (in_special_query_set d))
    (if in_special_query_set c then percent_encode_byte c else String c "") = true.
Proof. each_byte c; reflexivity. Qed.

Lemma fragment_set_chars c :
  string_forallb (fun d => negb (in_fragment_set d))
    (if in_fragment_set c then percent_encode_byte c else String c "") = true.
Proof. each_byte c; reflexivity. Qed.

Lemma query_encoded f s :
  string_forallb (fun d => negb (query_set_of f d)) (percent_encode (query_set_of f) s) = true.
Proof.
  apply percent_encode_chars. unfold query_set_of.
  destruct (special f); [apply special_query_set_chars|apply query_set_chars].
Qed.

Lemma fragment_encoded s :
  string_forallb (fun d => negb (in_fragment_set d)) (percent_encode in_fragment_set s) = true.
Proof. apply percent_encode_chars, fragment_set_chars. Qed.

Lemma percent_encode_id (set : ascii -> bool) s :
  string_forallb (fun d => negb (set d)) s = true -> percent_encode set s = s.
Proof.
  apply string_flat_map_id. intros c Hc. apply negb_true_iff in Hc. now rewrite Hc.
Qed.

Lemma query_char_plain f c :
  UrlEncoded.is_query_char c = true -> negb (query_set_of f c) = true.
Proof.
  unfold query_set_of. destruct (special f); each_byte c; intros Hc;
    (reflexivity || discriminate Hc).
Qed.

Lemma serialized_query_plain f l :
  string_forallb (fun c => negb (query_set_of f c)) (UrlEncoded.serialize l) = true.
Proof.
  eapply string_forallb_impl; [apply query_char_plain|apply serialize_chars].
Qed.

Lemma query_plain_not_hash f c :
  negb (query_set_of f c) = true -> negb (Ascii.eqb "#" c) = true.
Proof.
  unfold query_set_of. destruct (special f); each_byte c; intros Hc;
    (reflexivity || discriminate Hc).
Qed.

Lemma query_plain_not_c0 f c :
  negb (query_set_of f c) = true -> not_c0_or_space c = true.
Proof.
  unfold query_set_of. destruct (special f); each_byte c; intros Hc;
    (reflexivity || discriminate Hc).
Qed.

Lemma fragment_plain_not_c0 c :
  negb (in_fragment_set c) = true -> not_c0_or_space c = true.
Proof. each_byte c; intros Hc; (reflexivity || discriminate Hc). Qed.

Lemma not_c0_not_newline c :
  not_c0_or_space c = true -> negb (is_tab_or_newline c) = true.
Proof. each_byte c; intros Hc; (reflexivity || discriminate Hc). Qed.

Lemma front_char_not_newline c :
  front_char c = true -> negb (is_tab_or_newline c) = true.
Proof. unfold front_char. intros Hc. now apply andb_true_iff in Hc as [_ Hc]. Qed.

Lemma front_char_not_start c :
  front_char c = true -> negb (starts_query_or_fragment c) = true.
Proof. unfold front_char. intros Hc. now apply andb_true_iff in Hc as [Hc _]. Qed.

Lemma first_char_ok_forallb p s : string_forallb p s = true -> first_char_ok p s = true.
Proof.
  destruct s as [|c s]; [reflexivity|]. simpl. intros Hs.
  now apply andb_true_iff in Hs as [Hc _].
Qed.

(** Nothing is stripped or removed from a clean front followed by a tail
    without C0 control or space. *)
Lemma preprocess_clean ft rest :
  clean_front ft = true -> string_forallb not_c0_or_space rest = true ->
  preprocess (ft ++ rest) = ft ++ rest.
Proof.
  unfold clean_front. intros Hft Hrest.
  apply andb_true_iff in Hft as [Hft Hlast]. apply andb_true_iff in Hft as [Hall Hfirst].
  unfold preprocess.
  rewrite drop_while_first
    by (apply first_char_ok_app; [exact Hfirst|now apply first_char_ok_forallb]).
  rewrite drop_while_end_last
    by (apply last_char_ok_app; [exact Hlast|now apply last_char_ok_forallb]).
  apply string_filter_id. rewrite string_forallb_app. apply andb_true_iff. split.
  - eapply string_forallb_impl; [apply front_char_not_newline|exact Hall].
  - eapply string_forallb_impl; [apply not_c0_not_newline|exact Hrest].
Qed.

Lemma clean_front_no_start ft :
  clean_front ft = true ->
  string_forallb (fun c => negb (starts_query_or_fragment c)) ft = true.
Proof.
  unfold clean_front. intros Hft.
  apply andb_true_iff in Hft as [Hft _]. apply andb_true_iff in Hft as [Hall _].
  eapply string_forallb_impl; [apply front_char_not_start|exact Hall].
Qed.

Lemma basic_parse_settled `{!StableHost H} input u :
  basic_parse input = Some u -> settled u.
Proof.
  unfold basic_parse.
  destruct (break_at starts_query_or_fragment (preprocess input)) as [fi rest].
  destruct (parse_front fi) as [f|] eqn:Hf; [|discriminate].
  destruct (front_stable _ _ Hf) as [Hre Hclean].
  destruct rest as [[c after]|].
  - destruct (Ascii.eqb c "?").
    + destruct (break_at (Ascii.eqb "#") after) as [q frag].
      intros [= <-]. unfold settled. cbn [front query fragment].
      repeat split; try assumption; [apply query_encoded|].
      destruct frag as [[? fr]|]; [apply fragment_encoded|exact I].
    + intros [= <-]. unfold settled. cbn [front query fragment].
      repeat split; try assumption. apply fragment_encoded.
  - intros [= <-]. unfold settled. cbn [front query fragment]. now repeat split.
Qed.

(** The parser gives a settled record back from its serialization. *)
Lemma basic_parse_serialize u : settled u -> basic_parse (serialize u) = Some u.
Proof.
  destruct u as [f q fr]. unfold settled, serialize. cbn [front query fragment].
  intros (Hre & Hclean & Hq & Hfr).
  pose proof (clean_front_no_start _ Hclean) as Hns.
  assert (Hfrag : forall x, fr = Some x ->
            string_forallb not_c0_or_space x = true
            /\ percent_encode in_fragment_set x = x).
  { intros x ->. split; [|now apply percent_encode_id].
    eapply string_forallb_impl; [apply fragment_plain_not_c0|exact Hfr]. }
  unfold basic_parse. destruct q as [q|].
  - assert (Hq0 : string_forallb not_c0_or_space q = true)
      by (eapply string_forallb_impl; [apply query_plain_not_c0|exact Hq]).
    assert (Hqh : string_forallb (fun c => negb (Ascii.eqb "#" c)) q = true)
      by (eapply string_forallb_impl; [apply query_plain_not_hash|exact Hq]).
    rewrite preprocess_clean; [|exact Hclean|].
    + change ("?" ++ q) with (String "?" q). cbn [append].
      rewrite break_at_app by (exact Hns || reflexivity).
      rewrite Hre. cbn [Ascii.eqb Bool.eqb].
      destruct fr as [x|].
      * change ("#" ++ x) with (String "#" x).
        rewrite break_at_app by (exact Hqh || reflexivity).
        destruct (Hfrag x eq_refl) as [_ ->]. now rewrite percent_encode_id.
      * rewrite string_app_nil_r, break_at_none by exact Hqh.
        now rewrite percent_encode_id.
    + change ("?" ++ q) with (String "?" q). cbn [append string_forallb].
      rewrite string_forallb_app, Hq0. destruct fr as [x|]; [|reflexivity].
      destruct (Hfrag x eq_refl) as [Hx _]. cbn. exact Hx.
  - cbn [append]. destruct fr as [x|].
    + destruct (Hfrag x eq_refl) as [Hx Hid].
      change ("#" ++ x) with (String "#" x).
      rewrite preprocess_clean; [|exact Hclean|cbn; exact Hx].
      rewrite break_at_app by (exact Hns || reflexivity).
      rewrite Hre. cbn [Ascii.eqb Bool.eqb]. now rewrite Hid.
    + rewrite preprocess_clean; [|exact Hclean|reflexivity].
      rewrite string_app_nil_r, break_at_none by exact Hns.
      now rewrite Hre.
Qed.

End UrlFacts.

(* ================================================================== *)
(** ** The [URL] object under [searchParams.set] *)

Section UrlObject.

Context {H : Host}.

Lemma searchParams_set_synced u k v : synced (searchParams_set u k v).
Proof.
  unfold synced, searchParams_set. cbn [url query searchParams].
  now rewrite serialize_nonempty by apply set_pair_not_nil.
Qed.

Lemma fold_set_params E : forall u,
  searchParams (fold_left set_param E u) = fold_left set_entry E (searchParams u).
Proof. induction E as [|p E IH]; intros u; [reflexivity|]. cbn [fold_left]. now rewrite IH. Qed.

Lemma fold_set_front E : forall u,
  front (url (fold_left set_param E u)) = front (url u)
  /\ fragment (url (fold_left set_param E u)) = fragment (url u).
Proof.
  induction E as [|p E IH]; intros u; [now split|]. cbn [fold_left].
  destruct (IH (set_param u p)) as [-> ->]. now split.
Qed.

Lemma fold_set_synced E : forall u,
  synced u -> synced (fold_left set_param E u).
Proof.
  induction E as [|p E IH]; intros u Hu; [exact Hu|]. cbn [fold_left].
  apply IH, searchParams_set_synced.
Qed.

Lemma fold_set_query E u :
  query (url (fold_left set_param E u)) =
  match E with
  | [] => query (url u)
  | _ => Some (UrlEncoded.serialize (fold_left set_entry E (searchParams u)))
  end.
Proof.
  destruct E as [|p E]; [reflexivity|]. rewrite <- fold_set_params. cbn [fold_left].
  apply fold_set_synced, searchParams_set_synced.
Qed.

(** The text [appendQueryParams] returns, for a base that parses. *)
Lemma appendQueryParams_href baseUrl params u :
  URL_new baseUrl = Some u ->
  appendQueryParams baseUrl params =
  Normal
    (serialize
       {| front := front (url u);
          query :=
            match Object_entries params with
            | [] => query (url u)
            | E => Some (UrlEncoded.serialize (fold_left set_entry E (searchParams u)))
            end;
          fragment := fragment (url u) |}).
Proof.
  intros Hu. unfold appendQueryParams. rewrite Hu. f_equal. unfold href. f_equal.
  change (fun u0 p => searchParams_set u0 (fst p) (snd p)) with set_param.
  pose proof (fold_set_query (Object_entries params) u) as Hq.
  destruct (fold_set_front (Object_entries params) u) as [Hf Hfr].
  destruct (url (fold_left set_param (Object_entries params) u)) as [f q fr].
  cbn [front query fragment] in *. subst f fr. f_equal. rewrite Hq.
  now destruct (Object_entries params).
Qed.

(** A [set] that leaves the list alone leaves a synced object alone. *)
Lemma set_param_fixed u p :
  synced u -> set_entry (searchParams u) p = searchParams u -> set_param u p = u.
Proof.
  unfold synced, set_param, set_entry, searchParams_set. intros Hs Hl.
  destruct u as [[f q fr] l]. cbn [url searchParams front query fragment] in *.
  rewrite Hl. subst q. destruct l as [|a l].
  - exfalso. eapply set_pair_not_nil. exact Hl.
  - now rewrite serialize_nonempty.
Qed.

Lemma fold_set_param_fixed E : forall u,
  synced u ->
  (forall k v, In (k, v) E -> occurrences k (searchParams u) = [(k, v)]) ->
  fold_left set_param E u = u.
Proof.
  induction E as [|[k v] E IH]; intros u Hs Hocc; [reflexivity|]. cbn [fold_left].
  rewrite set_param_fixed; [|exact Hs|].
  - apply IH; [exact Hs|]. intros k' v' Hin. apply Hocc. now right.
  - apply set_pair_fixed, Hocc. now left.
Qed.

Lemma URL_new_settled `{!StableHost H} input u : URL_new input = Some u -> settled (url u).
Proof.
  unfold URL_new. destruct (basic_parse input) as [r|] eqn:Hr; [|discriminate].
  intros [= <-]. cbn [url]. eapply basic_parse_settled. exact Hr.
Qed.

Lemma URL_new_params input u :
  URL_new input = Some u ->
  searchParams u = UrlEncoded.parse (match query (url u) with Some q => q | None => "" end).
Proof.
  unfold URL_new. destruct (basic_parse input) as [r|]; [|discriminate]. now intros [= <-].
Qed.

Lemma URL_new_text input u : URL_new input = Some u -> text_pairs (searchParams u).
Proof. intros Hu. rewrite (URL_new_params _ _ Hu). apply parse_text. Qed.

(** A URL object comes back from its own [href]. *)
Lemma URL_new_href `{!StableHost H} input u : URL_new input = Some u -> URL_new (href u) = Some u.
Proof.
  intros Hu. pose proof (URL_new_settled _ _ Hu) as Hs.
  pose proof (URL_new_params _ _ Hu) as Hp.
  unfold URL_new, href. rewrite (basic_parse_serialize _ Hs).
  destruct u as [r l]. cbn [url searchParams] in *. now subst l.
Qed.

Lemma fold_set_entry_text E : forall l,
  text_pairs E -> text_pairs l -> text_pairs (fold_left set_entry E l).
Proof.
  induction E as [|[k v] E IH]; intros l HE Hl; [exact Hl|]. cbn [fold_left].
  inversion HE as [|? ? [Hk Hv] HE']; subst.
  apply IH; [exact HE'|]. now apply set_pair_text.
Qed.

End UrlObject.

(* ================================================================== *)
(** ** The host of the examples is stable *)

Section SimpleHost.

Lemma clean_front_plain t : string_forallb plain_char t = true -> clean_front t = true.
Proof.
  intros Ht. unfold clean_front. rewrite !andb_true_iff. repeat split.
  - eapply string_forallb_impl; [|exact Ht]. unfold plain_char. intros c Hc.
    now apply andb_true_iff in Hc as [Hc _].
  - apply first_char_ok_forallb. eapply string_forallb_impl; [|exact Ht].
    unfold plain_char. intros c Hc. now apply andb_true_iff in Hc as [_ Hc].
  - apply last_char_ok_forallb. eapply string_forallb_impl; [|exact Ht].
    unfold plain_char. intros c Hc. now apply andb_true_iff in Hc as [_ Hc].
Qed.

Lemma labels_ok_chars h : forall b,
  labels_ok b h = true ->
  string_forallb (fun c => is_lower c || Ascii.eqb c ".") h = true.
Proof.
  induction h as [|c h IH]; intros b; [reflexivity|]. cbn [labels_ok string_forallb].
  destruct (is_lower c); cbn [orb andb]; [apply IH|].
  destruct (Ascii.eqb c "."); [|discriminate]. intros Hh.
  apply andb_true_iff in Hh as [_ Hh]. now apply IH in Hh.
Qed.

Lemma host_char_plain c :
  is_lower c || Ascii.eqb c "." = true -> plain_char c && negb (Ascii.eqb "/" c) = true.
Proof. each_byte c; intros Hc; (reflexivity || discriminate Hc). Qed.

Lemma path_char_plain c : path_char c = true -> plain_char c = true.
Proof. each_byte c; intros Hc; (reflexivity || discriminate Hc). Qed.

Lemma simple_authority_path_stable scheme rest f :
  string_forallb plain_char scheme = true ->
  simple_authority_path scheme rest = Some f ->
  exists host p,
    front_text f = scheme ++ "://" ++ host ++ "/" ++ p
    /\ simple_authority_path scheme (host ++ "/" ++ p) = Some f
    /\ clean_front (front_text f) = true.
Proof.
  intros Hscheme. unfold simple_authority_path.
  destruct (break_at (Ascii.eqb "/") rest) as [host path].
  set (p := match path with Some (_, p) => p | None => "" end).
  destruct (labels_ok true host) eqn:Hh; [|discriminate].
  destruct (string_forallb path_char p) eqn:Hp; [|discriminate].
  cbn [andb]. intros [= <-]. exists host, p. cbn [front_text].
  pose proof (labels_ok_chars _ _ Hh) as Hc.
  assert (Hhost : string_forallb plain_char host = true
                  /\ string_forallb (fun c => negb (Ascii.eqb "/" c)) host = true).
  { split; (eapply string_forallb_impl; [|exact Hc]); intros c Hx;
      apply host_char_plain in Hx; now apply andb_true_iff in Hx as [? ?]. }
  destruct Hhost as [Hplain Hslash]. split; [reflexivity|]. split.
  - change ("/" ++ p) with (String "/" p).
    rewrite break_at_app by (exact Hslash || reflexivity).
    now rewrite Hh, Hp.
  - apply clean_front_plain. rewrite string_forallb_app, Hscheme.
    cbn [string_forallb andb]. change (plain_char ":") with true.
    change (plain_char "/") with true. cbn [andb].
    rewrite string_forallb_app, Hplain. cbn [string_forallb andb].
    change (plain_char "/") with true. cbn [andb]. eapply string_forallb_impl; [apply path_char_plain|exact Hp].
Qed.

Lemma simple_host_stable : StableHost simple_host.
Proof.
  intros s f. cbn [parse_front simple_host]. unfold simple_parse_front.
  destruct (strip_prefix "https://" s) as [rest|].
  - intros Hf. destruct (simple_authority_path_stable "https" rest f eq_refl Hf)
      as (host & p & Ht & Hre & Hclean).
    split; [|exact Hclean]. rewrite Ht. exact Hre.
  - destruct (strip_prefix "http://" s) as [rest|]; [|discriminate].
    intros Hf. destruct (simple_authority_path_stable "http" rest f eq_refl Hf)
      as (host & p & Ht & Hre & Hclean).
    split; [|exact Hclean]. rewrite Ht. exact Hre.
Qed.

End SimpleHost.

(* ================================================================== *)
(** ** Properties of the library *)

Section Entries.

Lemma In_entries_get_own params k v :
  wf params -> In (k, v) params -> get_own (Object_entries params) k = Some v.
Proof.
  intros Hwf Hin. apply In_get_own; [now apply Object_entries_NoDup|].
  eapply Permutation_in; [symmetry; apply Object_entries_perm|exact Hin].
Qed.

Lemma has_key_entries params k : has_key k (Object_entries params) = has_key k params.
Proof.
  apply eq_true_iff_eq. rewrite !has_key_In. unfold keys.
  split; apply Permutation_in, Permutation_map;
    [|symmetry]; apply Object_entries_perm.
Qed.

Lemma filter_twice {A} (P Q : A -> bool) (l : list A) :
  filter P (filter Q l) = filter (fun x => P x && Q x) l.
Proof.
  induction l as [|a l IH]; [reflexivity|]. cbn [filter].
  destruct (Q a); cbn [filter]; rewrite ?andb_false_r, ?andb_true_r;
    [destruct (P a)|]; now rewrite IH.
Qed.

Lemma update_existing_app E l1 : forall l2,
  update_existing E (l1 ++ l2) =
  (update_existing E l1
   ++ filter (fun p => negb (has_key (fst p) l1 && has_key (fst p) E))
        (update_existing E l2))%list.
Proof.
  induction l1 as [|[n w] l1 IH]; intros l2.
  - cbn [app update_existing]. symmetry.
    rewrite <- (filter_ext (fun _ => true)) by reflexivity.
    induction (update_existing E l2) as [|a q IHq]; [reflexivity|].
    cbn [filter]. now rewrite IHq.
  - rewrite <- app_comm_cons, !update_existing_cons, IH.
    destruct (get_own E n) as [v'|] eqn:Hn.
    + rewrite <- app_comm_cons. f_equal. rewrite remove_name_app. f_equal.
      unfold remove_name. rewrite filter_twice. apply filter_ext. intros [m x].
      cbn [fst]. rewrite has_key_cons.
      destruct (String.eqb_spec m n) as [->|Hmn].
      * rewrite String.eqb_refl. rewrite (get_own_some_key _ _ _ Hn). reflexivity.
      * destruct (String.eqb_spec n m) as [->|_]; [congruence|reflexivity].
    + rewrite <- app_comm_cons. do 2 f_equal. apply filter_ext. intros [m x].
      cbn [fst]. rewrite has_key_cons.
      destruct (String.eqb_spec n m) as [<-|_]; [|reflexivity].
      apply get_own_none in Hn. rewrite Hn. now rewrite !andb_false_r.
Qed.

Lemma has_key_filter (P : string * string -> bool) k l :
  has_key k l = false -> has_key k (filter P l) = false.
Proof.
  rewrite !has_key_not_In. intros Hk Hin. apply Hk.
  unfold keys in *. apply in_map_iff in Hin as [p [Hp Hin]].
  apply filter_In in Hin as [Hin _]. apply in_map_iff. now exists p.
Qed.

Lemma has_key_newly_added k E l :
  has_key k l = true -> has_key k (newly_added E l) = false.
Proof.
  intros Hk. apply has_key_not_In. intros Hin. unfold keys, newly_added in Hin.
  apply in_map_iff in Hin as [p [Hp Hin]]. apply filter_In in Hin as [_ Hn].
  subst k. rewrite Hk in Hn. discriminate.
Qed.

(** The text [appendQueryParams] returns, its query written as the merge
    of section 4.2. *)
Lemma appendQueryParams_merged `{H : Host} baseUrl params u :
  URL_new baseUrl = Some u ->
  wf params ->
  appendQueryParams baseUrl params =
    Normal
      (serialize
         {| front := front (url u);
            query := match Object_entries params with
                     | [] => query (url u)
                     | _ => Some (UrlEncoded.serialize
                                    (merged (searchParams u) (Object_entries params)))
                     end;
            fragment := fragment (url u) |}).
Proof.
  intros Hu Hwf. rewrite (appendQueryParams_href _ _ _ Hu).
  rewrite <- (fold_set_merged _ (searchParams u) (Object_entries_NoDup _ Hwf)).
  now destruct (Object_entries params).
Qed.

End Entries.

(** C1.  For a base URL that parses and a parameter object [params],
    [appendQueryParams] returns the serialization of the base with its query
    replaced by the merged parameter list: the pre-existing parameters first,
    in their original order, each one whose name [params] has carrying the
    value of [params] in place, followed by the entries of [params] whose
    name was absent, in the order in which [Object.entries] iterates [params].
    Every name of [params] occurs exactly once in the result, with the value
    of [params]; the parameters of every other name are those of the base,
    unchanged.  (With no entry at all, the query is left as it was parsed.) *)
Theorem appendQueryParams_merges `{H : Host} (baseUrl : string) (params : Obj) (u : URL) :
  URL_new baseUrl = Some u ->
  wf params ->
  let existing := searchParams u in
  let entries := Object_entries params in
  let result := (update_existing entries existing ++ newly_added entries existing)%list in
  appendQueryParams baseUrl params =
    Normal
      (serialize
         {| front := front (url u);
            query := match entries with
                     | [] => query (url u)
                     | _ => Some (UrlEncoded.serialize result)
                     end;
            fragment := fragment (url u) |})
  /\ (forall k v, In (k, v) params -> occurrences k result = [(k, v)])
  /\ (forall k, has_key k params = false -> occurrences k result = occurrences k existing).
Proof.
  intros Hu Hwf existing entries result.
  pose proof (Object_entries_NoDup _ Hwf) as Hnd.
  assert (Hres : fold_left set_entry entries existing = result)
    by (apply (fold_set_merged entries existing Hnd)).
  split; [|split].
  - exact (appendQueryParams_merged baseUrl params u Hu Hwf).
  - intros k v Hin. rewrite <- Hres. apply occurrences_fold_same; [exact Hnd|].
    eapply Permutation_in; [symmetry; apply Object_entries_perm|exact Hin].
  - intros k Hk. rewrite <- Hres. apply occurrences_fold_other.
    unfold entries. now rewrite has_key_entries.
Qed.

(** The example of the specification: the override wins. *)
Lemma appendQueryParams_merges_example :
  @appendQueryParams simple_host "https://example.com?a=9" [("a", "1")] =
  Normal "https://example.com/?a=1".
Proof.
  assert (Hwf : wf [("a", "1")]) by (repeat constructor; intros []).
  destruct (@appendQueryParams_merges simple_host
              "https://example.com?a=9" [("a", "1")] _ eq_refl Hwf) as [Hr _].
  exact Hr.
Defined.

(** C2.  The object built by [getAllQueryParams] never has an own property
    [__proto__]: the assignment [result[key] = value] of line 16 reaches the
    inherited setter, which ignores a text.  On the search string
    [?__proto__=x] the parsed pairs are [__proto__ = x] and the returned
    mapping is empty. *)
Theorem getAllQueryParams_drops_proto :
  (forall w, has_key "__proto__" (getAllQueryParams w) = false)
  /\ URLSearchParams_new "?__proto__=x" = [("__proto__", "x")]
  /\ (forall e, getAllQueryParams (page "?__proto__=x" e) = []).
Proof.
  split; [|split; [reflexivity|intros e; reflexivity]].
  intros w. rewrite getAllQueryParams_map, has_key_query_parameter_map.
  rewrite has_key_remove_name. now rewrite String.eqb_refl.
Qed.

(** C3.  [appendQueryParams] throws exactly when the URL parser rejects
    [baseUrl], whatever [params] is, and what it throws is the parser's
    [TypeError]; otherwise it returns. *)
Theorem appendQueryParams_throws_iff `{H : Host} (baseUrl : string) (params : Obj) :
  (appendQueryParams baseUrl params = Throw URLTypeError <-> basic_parse baseUrl = None)
  /\ (forall e, appendQueryParams baseUrl params = Throw e -> e = URLTypeError)
  /\ (basic_parse baseUrl <> None <-> exists text, appendQueryParams baseUrl params = Normal text).
Proof.
  unfold appendQueryParams, URL_new.
  destruct (basic_parse baseUrl) as [r|]; repeat split; try congruence; try discriminate.
  - intros _. eexists. reflexivity.
  - intros [text Ht]. discriminate.
Qed.





Section Assignment.

Lemma set_src_throws v s w e w' :
  set_src v s w = (Throw e, w') ->
  w' = w /\ e = AssignmentTypeError /\ is_element_of w v HTMLIFrameElement = false.
Proof.
  destruct v as [| | |[[| |]|] o|r]; cbn [set_src is_element_of]; try discriminate.
  1-3: intros [= <- <-]; now repeat split.
  destruct (dom w r); discriminate.
Qed.

Lemma set_href_throws v s w e w' :
  set_href v s w = (Throw e, w') ->
  w' = w /\ e = AssignmentTypeError /\ is_element_of w v HTMLAnchorElement = false.
Proof.
  destruct v as [| | |[[| |]|] o|r]; cbn [set_href is_element_of]; try discriminate.
  1-3: intros [= <- <-]; now repeat split.
  destruct (dom w r); discriminate.
Qed.

End Assignment.

(** C5.  When [setIframeSrcWithQuery] or [generateLinkWithQuery] throws,
    the world is the one it was called in: no attribute of any element has
    been written and no navigation requested.  It throws in three cases
    only: the element check, a base URL the parser rejects, and an argument
    that passes the check without being an element of the interface, on
    which the attribute's setter throws.  It does throw for a base the
    parser rejects. *)
Theorem sinks_fail_without_effect `{H : Host} (w : World) (v : Value) (baseUrl : string) :
  (forall e w', setIframeSrcWithQuery v baseUrl w = (Throw e, w') ->
     w' = w
     /\ (e = Error "Provided element is not a valid iframe"
           /\ instanceOf w v HTMLIFrameElement = false
         \/ e = URLTypeError /\ basic_parse baseUrl = None
         \/ e = AssignmentTypeError
            /\ instanceOf w v HTMLIFrameElement = true
            /\ is_element_of w v HTMLIFrameElement = false))
  /\ (forall e w', generateLinkWithQuery baseUrl v w = (Throw e, w') ->
        w' = w
        /\ (e = Error "Provided element is not a valid anchor element"
              /\ instanceOf w v HTMLAnchorElement = false
            \/ e = URLTypeError /\ basic_parse baseUrl = None
            \/ e = AssignmentTypeError
               /\ instanceOf w v HTMLAnchorElement = true
               /\ is_element_of w v HTMLAnchorElement = false))
  /\ (basic_parse baseUrl = None ->
      instanceOf w v HTMLIFrameElement = true ->
      setIframeSrcWithQuery v baseUrl w = (Throw URLTypeError, w))
  /\ (basic_parse baseUrl = None ->
      instanceOf w v HTMLAnchorElement = true ->
      generateLinkWithQuery baseUrl v w = (Throw URLTypeError, w)).
Proof.
  unfold setIframeSrcWithQuery, generateLinkWithQuery, appendQueryParams, URL_new.
  split; [|split; [|split]].
  - intros e w'. destruct (instanceOf w v HTMLIFrameElement); cbn [negb].
    + destruct (basic_parse baseUrl).
      * intros Hs. apply set_src_throws in Hs as (-> & -> & Hg).
        split; [reflexivity|]. right. right. now repeat split.
      * intros [= <- <-]. split; [reflexivity|]. right. left. now split.
    + intros [= <- <-]. split; [reflexivity|]. left. now split.
  - intros e w'. destruct (instanceOf w v HTMLAnchorElement); cbn [negb].
    + destruct (basic_parse baseUrl).
      * intros Hs. apply set_href_throws in Hs as (-> & -> & Hg).
        split; [reflexivity|]. right. right. now repeat split.
      * intros [= <- <-]. split; [reflexivity|]. right. left. now split.
    + intros [= <- <-]. split; [reflexivity|]. left. now split.
  - intros -> ->. reflexivity.
  - intros -> ->. reflexivity.
Qed.

Lemma sinks_fail_without_effect_example :
  @setIframeSrcWithQuery simple_host (VElement 0) "example.com/no-scheme"
    (page "?id=5" (blank HTMLIFrameElement))
  = (Throw URLTypeError, page "?id=5" (blank HTMLIFrameElement)).
Proof.
  exact (proj1 (proj2 (proj2 (@sinks_fail_without_effect simple_host
           (page "?id=5" (blank HTMLIFrameElement)) (VElement 0) "example.com/no-scheme")))
           eq_refl eq_refl).
Defined.



(** C9, as the specification states it: the entries of the map stand in
    the left-to-right order in which their keys occur in the query string.
    It fails on [?b=1&1=2], where [Object.entries] lists [1] before [b]. *)
Lemma getAllQueryParams_order_counterexample :
  Object_entries (getAllQueryParams (page "?b=1&1=2" (blank OtherElement)))
  <> query_parameter_map (URLSearchParams_new "?b=1&1=2").
Proof. vm_compute. discriminate. Qed.

(** C9, amended.  For a query string none of whose keys is [__proto__],
    the map has one entry for each key of the parsed query string, with the
    key's last value; its entries are listed with the keys that are array
    indices first, in ascending numeric order, and then all other keys in
    the left-to-right order of their first occurrence.  With no array index
    among the keys the entries are exactly the QueryParameterMap of the
    specification. *)
Theorem getAllQueryParams_entries (w : World) :
  has_key "__proto__" (URLSearchParams_new (location_search w)) = false ->
  let map := query_parameter_map (URLSearchParams_new (location_search w)) in
  (exists idx,
     Object_entries (getAllQueryParams w) =
       (idx ++ filter (fun p => negb (is_array_index (fst p))) map)%list
     /\ Permutation idx (filter (fun p => is_array_index (fst p)) map)
     /\ StronglySorted (fun p q => (entry_index p <= entry_index q)%N) idx)
  /\ ((forall k, In k (keys (URLSearchParams_new (location_search w))) ->
                 is_array_index k = false) ->
      Object_entries (getAllQueryParams w) = map).
Proof.
  intros Hp map.
  assert (Hmap : getAllQueryParams w = map).
  { rewrite getAllQueryParams_map. unfold map.
    now rewrite remove_name_absent by exact Hp. }
  rewrite Hmap. split; [apply Object_entries_order|].
  intros Hk. apply Object_entries_no_index. intros k Hin. apply Hk.
  apply has_key_In. apply has_key_In in Hin. unfold map in Hin.
  now rewrite has_key_query_parameter_map in Hin.
Qed.

Lemma getAllQueryParams_entries_example :
  exists idx,
    Object_entries (getAllQueryParams (page "?b=1&1=2&b=3" (blank OtherElement))) =
      (idx ++ [("b", "3")])%list
    /\ Permutation idx [("1", "2")].
Proof.
  destruct (proj1 (getAllQueryParams_entries (page "?b=1&1=2&b=3" (blank OtherElement)) eq_refl))
    as (idx & He & Hperm & _).
  exists idx. split; [exact He|exact Hperm].
Defined.

Lemma has_key_update_existing E k l :
  has_key k (update_existing E l) = has_key k l.
Proof.
  induction l as [|[n w] l IH]; [reflexivity|].
  rewrite update_existing_cons, has_key_cons.
  destruct (get_own E n); rewrite has_key_cons, ?has_key_remove_name, IH;
    destruct (String.eqb n k); reflexivity.
Qed.

Lemma update_existing_untouched E l :
  (forall n, has_key n l = true -> has_key n E = false) -> update_existing E l = l.
Proof.
  induction l as [|[n w] l IH]; [reflexivity|]. intros Hl.
  rewrite update_existing_cons.
  assert (Hn : get_own E n = None).
  { apply get_own_none, Hl. rewrite has_key_cons. now rewrite String.eqb_refl. }
  rewrite Hn, IH; [reflexivity|].
  intros m Hm. apply Hl. rewrite has_key_cons, Hm. apply orb_true_r.
Qed.

(** C10.  When the query of the base holds the name [k], first at the
    position that follows the pairs [l1], and [params] gives [k] the value
    [v], the merged query holds [k] once, with [v], right after what the
    merge makes of [l1]: every further occurrence of [k] is gone.  When
    [params] has none of the names of [l1], those pairs stand unchanged, so
    that [k] keeps the index of its first occurrence. *)
Theorem appendQueryParams_collapses_duplicates `{H : Host}
    (baseUrl : string) (params : Obj) (u : URL)
    (k v v0 : string) (l1 l2 : list (string * string)) :
  URL_new baseUrl = Some u ->
  wf params ->
  In (k, v) params ->
  searchParams u = (l1 ++ (k, v0) :: l2)%list ->
  has_key k l1 = false ->
  let before := update_existing (Object_entries params) l1 in
  exists after,
    appendQueryParams baseUrl params =
      Normal
        (serialize
           {| front := front (url u);
              query := Some (UrlEncoded.serialize (before ++ (k, v) :: after)%list);
              fragment := fragment (url u) |})
    /\ has_key k before = false
    /\ has_key k after = false
    /\ ((forall n, has_key n l1 = true -> has_key n params = false) -> before = l1).
Proof.
  intros Hu Hwf Hin Hsp Hk1 before.
  set (E := Object_entries params) in *.
  assert (Hget : get_own E k = Some v) by now apply In_entries_get_own.
  exists (filter (fun p => negb (has_key (fst p) l1 && has_key (fst p) E))
            (remove_name k (update_existing E l2))
          ++ newly_added E (l1 ++ (k, v0) :: l2))%list.
  split; [|split; [|split]].
  - rewrite (appendQueryParams_merged baseUrl params u Hu Hwf). unfold merged.
    fold E. rewrite Hsp.
    rewrite update_existing_app, update_existing_cons, Hget.
    cbn [filter fst]. rewrite Hk1. cbn [andb negb].
    rewrite <- app_assoc, <- app_comm_cons.
    destruct E as [|e E']; [discriminate Hget|reflexivity].
  - unfold before. now rewrite has_key_update_existing.
  - rewrite has_key_app. apply orb_false_iff. split.
    + apply has_key_filter. rewrite has_key_remove_name, String.eqb_refl. reflexivity.
    + apply has_key_newly_added. rewrite has_key_app, has_key_cons, String.eqb_refl.
      apply orb_true_r.
  - intros Hl. apply update_existing_untouched. intros n Hn.
    unfold E. rewrite has_key_entries. now apply Hl.
Qed.

Lemma appendQueryParams_collapses_duplicates_example :
  exists after,
    @appendQueryParams simple_host "https://example.com/?x=0&k=1&y=2&k=3" [("k", "9")] =
      Normal
        (serialize
           {| front := {| special := true; front_text := "https://example.com/" |};
              query := Some (UrlEncoded.serialize ([("x", "0")] ++ ("k", "9") :: after)%list);
              fragment := None |})
    /\ has_key "k" after = false.
Proof.
  assert (Hwf : wf [("k", "9")]) by (repeat constructor; intros []).
  destruct (@appendQueryParams_collapses_duplicates simple_host
              "https://example.com/?x=0&k=1&y=2&k=3" [("k", "9")] _
              "k" "9" "1" [("x", "0")] [("y", "2"); ("k", "3")]
              eq_refl Hwf (or_introl eq_refl) eq_refl eq_refl)
    as (after & Hr & _ & Hafter & _).
  exists after. split; [exact Hr|exact Hafter].
Defined.

Section Idempotence.

Context {H : Host} {S : StableHost H}.

(** The URL object after the loop of [appendQueryParams] comes back from
    its own [href]. *)
Lemma URL_new_href_fold input u E :
  URL_new input = Some u ->
  text_pairs E ->
  URL_new (href (fold_left set_param E u)) = Some (fold_left set_param E u).
Proof.
  intros Hu HE. destruct E as [|p E]; [now apply (URL_new_href input)|].
  set (u' := fold_left set_param (p :: E) u).
  pose proof (fold_set_query (p :: E) u) as Hq. fold u' in Hq.
  rewrite <- fold_set_params in Hq. fold u' in Hq.
  destruct (fold_set_front (p :: E) u) as [Hf Hfr]. fold u' in Hf, Hfr.
  assert (Htext : text_pairs (searchParams u')).
  { unfold u'. rewrite fold_set_params.
    apply fold_set_entry_text; [exact HE|]. now apply (URL_new_text input). }
  destruct (URL_new_settled _ _ Hu) as (Hre & Hclean & _ & Hfrag).
  assert (Hs : settled (url u')).
  { unfold settled. rewrite Hf, Hfr, Hq. repeat split; try assumption.
    apply serialized_query_plain. }
  unfold URL_new, href. rewrite (basic_parse_serialize _ Hs), Hq.
  rewrite (parse_serialize_text _ Htext). now destruct u'.
Qed.

End Idempotence.

(** C6.  On a host whose front parser is stable, for a base URL that
    parses and a parameter object holding text, [appendQueryParams] returns
    a text on which it returns the same text again. *)
Theorem appendQueryParams_idempotent `{H : Host} `{!StableHost H}
    (url : string) (params : Obj) (u : URL) :
  URL_new url = Some u ->
  wf params ->
  text_pairs params ->
  exists text,
    appendQueryParams url params = Normal text
    /\ appendQueryParams text params = Normal text.
Proof.
  intros Hu Hwf Htext.
  set (E := Object_entries params).
  assert (HE : text_pairs E)
    by (eapply Permutation_Forall; [symmetry; apply Object_entries_perm|exact Htext]).
  pose proof (Object_entries_NoDup _ Hwf) as Hnd. fold E in Hnd.
  set (u' := fold_left set_param E u).
  exists (href u'). split.
  - unfold appendQueryParams. now rewrite Hu.
  - assert (Hre : URL_new (href u') = Some u')
      by apply (URL_new_href_fold url u E Hu HE).
    unfold appendQueryParams. rewrite Hre.
    fold E. change (fun u0 p => searchParams_set u0 (fst p) (snd p)) with set_param.
    do 2 f_equal.
    destruct E as [|p E'] eqn:HeqE; [reflexivity|].
    apply fold_set_param_fixed.
    + unfold u'. cbn [fold_left]. apply fold_set_synced, searchParams_set_synced.
    + intros k v Hin. unfold u'. rewrite fold_set_params.
      now apply occurrences_fold_same.
Qed.

Lemma appendQueryParams_idempotent_example :
  exists text,
    @appendQueryParams simple_host "https://example.com?a=9&b=%41#top" [("a", "1"); ("c", "x y")]
      = Normal text
    /\ @appendQueryParams simple_host text [("a", "1"); ("c", "x y")] = Normal text.
Proof.
  assert (Hwf : wf [("a", "1"); ("c", "x y")]).
  { repeat constructor; cbn; intuition discriminate. }
  assert (Htext : text_pairs [("a", "1"); ("c", "x y")]).
  { repeat constructor. }
  exact (@appendQueryParams_idempotent simple_host simple_host_stable
           "https://example.com?a=9&b=%41#top" [("a", "1"); ("c", "x y")] _
           eq_refl Hwf Htext).
Defined.

(** C7.  With the empty object [appendQueryParams] returns the
    serialization of the parsed base, its query as it was parsed; on a stable
    host that text parses to the same URL object, hence to the same
    parameters.  The text need not be the input: the specification's example
    [https://example.com] with [a = 1] and [b = 2] gives
    [https://example.com/?a=1&b=2]. *)
Theorem appendQueryParams_empty :
  (forall (H : Host) (url : string) (u : URL),
     URL_new url = Some u ->
     appendQueryParams url [] = Normal (href u)
     /\ (StableHost H ->
         exists u', URL_new (href u) = Some u' /\ searchParams u' = searchParams u))
  /\ @appendQueryParams simple_host "https://example.com" [("a", "1"); ("b", "2")]
     = Normal "https://example.com/?a=1&b=2".
Proof.
  split; [|reflexivity]. intros H url u Hu. split.
  - unfold appendQueryParams. now rewrite Hu.
  - intros S. exists u. split; [|reflexivity]. now apply (URL_new_href url).
Qed.

Lemma appendQueryParams_empty_example :
  @appendQueryParams simple_host " https://example.com?a=9&b=x+y" [] =
    Normal "https://example.com/?a=9&b=x+y"
  /\ exists u',
       @URL_new simple_host "https://example.com/?a=9&b=x+y" = Some u'
       /\ searchParams u' = [("a", "9"); ("b", "x y")].
Proof.
  destruct (proj1 appendQueryParams_empty simple_host " https://example.com?a=9&b=x+y" _ eq_refl)
    as [Hr Hs].
  split; [exact Hr|]. exact (Hs simple_host_stable).
Defined.

(* ================================================================== *)
(** ** Further properties: reading the map, the three sinks *)

Section Lookup.

Implicit Types (k n : string) (l : list (string * string)).

Lemma get_own_remove_other k n l :
  n <> k -> get_own (remove_name n l) k = get_own l k.
Proof.
  intros Hnk. induction l as [|[m w] l IH]; [reflexivity|].
  rewrite remove_name_cons. cbn [get_own].
  destruct (String.eqb_spec m n) as [->|Hmn].
  - destruct (String.eqb_spec n k); [congruence|exact IH].
  - cbn [get_own]. now rewrite IH.
Qed.

Lemma last_value_cons k n w l :
  last_value k ((n, w) :: l) =
  match last_value k l with
  | Some v' => Some v'
  | None => if String.eqb n k then Some w else None
  end.
Proof. reflexivity. Qed.

Lemma last_value_remove_other k n l :
  n <> k -> last_value k (remove_name n l) = last_value k l.
Proof.
  intros Hnk. induction l as [|[m w] l IH]; [reflexivity|].
  rewrite remove_name_cons, last_value_cons.
  destruct (String.eqb_spec m n) as [->|Hmn].
  - rewrite IH. destruct (String.eqb_spec n k); [congruence|].
    now destruct (last_value k l).
  - now rewrite last_value_cons, IH.
Qed.

Lemma get_own_query_parameter_map k l :
  get_own (query_parameter_map l) k = last_value k l.
Proof.
  induction l as [|[m w] l IH]; [reflexivity|].
  rewrite query_parameter_map_cons, last_value_cons. cbn [get_own].
  destruct (String.eqb_spec m k) as [->|Hmk].
  - now destruct (last_value k l).
  - rewrite (get_own_remove_other _ _ _ Hmk), IH. now destruct (last_value k l).
Qed.

Lemma last_value_no_occurrence k l : occurrences k l = [] -> last_value k l = None.
Proof.
  induction l as [|[m w] l IH]; [reflexivity|].
  rewrite occurrences_cons, last_value_cons.
  destruct (String.eqb m k); [discriminate|]. intros Hl. now rewrite IH.
Qed.

Lemma last_value_one_occurrence k v l : occurrences k l = [(k, v)] -> last_value k l = Some v.
Proof.
  induction l as [|[m w] l IH]; [discriminate|].
  rewrite occurrences_cons, last_value_cons.
  destruct (String.eqb m k).
  - intros [= -> -> Hl]. now rewrite last_value_no_occurrence.
  - intros Hl. now rewrite IH.
Qed.

Lemma has_key_fold_set E : forall l k,
  has_key k (fold_left set_entry E l) = has_key k l || has_key k E.
Proof.
  induction E as [|[n v] E IH]; intros l k; cbn [fold_left].
  - cbn. now rewrite orb_false_r.
  - rewrite IH. unfold set_entry. cbn [fst snd].
    rewrite has_key_set_pair, has_key_cons.
    destruct (String.eqb n k), (has_key k l), (has_key k E); reflexivity.
Qed.

Lemma getAllQueryParams_lookup w k :
  k <> "__proto__" ->
  get_own (getAllQueryParams w) k = last_value k (URLSearchParams_new (location_search w)).
Proof.
  intros Hk. rewrite getAllQueryParams_map, get_own_query_parameter_map.
  apply last_value_remove_other. congruence.
Qed.

(** The text [appendQueryParams] returns for an object with an entry. *)
Lemma appendQueryParams_list `{H : Host} baseUrl params u :
  URL_new baseUrl = Some u ->
  params <> [] ->
  appendQueryParams baseUrl params =
    Normal
      (serialize
         {| front := front (url u);
            query := Some (UrlEncoded.serialize
                             (fold_left set_entry (Object_entries params) (searchParams u)));
            fragment := fragment (url u) |}).
Proof.
  intros Hu Hp. rewrite (appendQueryParams_href _ _ _ Hu).
  destruct (Object_entries params) eqn:HE; [|reflexivity].
  apply Object_entries_nil in HE. contradiction.
Qed.

End Lookup.

(** X1.  Of the object [getAllQueryParams] returns, the own property of a
    key other than [__proto__] exists exactly when the parsed query string
    has the key, and holds the value of the key's last occurrence.  (Own
    properties only: [get_own] is what [Object.entries] and [hasOwnProperty]
    see; a read [result[k]] of a key the query string lacks goes on to
    [Object.prototype], which has [toString], [constructor] and the like.) *)
Theorem getAllQueryParams_last_wins (w : World) (k : string) :
  k <> "__proto__" ->
  get_own (getAllQueryParams w) k = last_value k (URLSearchParams_new (location_search w)).
Proof. apply getAllQueryParams_lookup. Qed.

Lemma getAllQueryParams_last_wins_example :
  get_own (getAllQueryParams (page "?a=1&b=x+y&a=3&c" (blank OtherElement))) "a" = Some "3".
Proof.
  refine (getAllQueryParams_last_wins (page "?a=1&b=x+y&a=3&c" (blank OtherElement)) "a" _).
  discriminate.
Defined.

(** X2.  The object [getAllQueryParams] returns has no key twice, and its
    keys are the names of the query string other than [__proto__]. *)
Theorem getAllQueryParams_keys (w : World) :
  NoDup (keys (getAllQueryParams w))
  /\ forall k, has_key k (getAllQueryParams w) =
               negb (String.eqb k "__proto__")
               && has_key k (URLSearchParams_new (location_search w)).
Proof.
  split; [apply getAllQueryParams_wf|]. intros k.
  rewrite getAllQueryParams_map, has_key_query_parameter_map, has_key_remove_name.
  now rewrite String.eqb_sym.
Qed.

(** X3.  For an object with at least one entry and a base that parses,
    [appendQueryParams] returns the base with a query whose names are those
    of the base together with those of the object, none lost, and which is
    written with ASCII alphanumerics and [* - . _ + % = &] only. *)
Theorem appendQueryParams_names `{H : Host} (baseUrl : string) (params : Obj) (u : URL) :
  URL_new baseUrl = Some u ->
  params <> [] ->
  exists l,
    appendQueryParams baseUrl params =
      Normal
        (serialize
           {| front := front (url u);
              query := Some (UrlEncoded.serialize l);
              fragment := fragment (url u) |})
    /\ (forall k, has_key k l = has_key k (searchParams u) || has_key k params)
    /\ string_forallb UrlEncoded.is_query_char (UrlEncoded.serialize l) = true.
Proof.
  intros Hu Hp. eexists. split; [exact (appendQueryParams_list _ _ _ Hu Hp)|]. split.
  - intros k. now rewrite has_key_fold_set, has_key_entries.
  - apply serialize_chars.
Qed.

Lemma appendQueryParams_names_example :
  exists l,
    @appendQueryParams simple_host "https://example.com/p?x=0#top" [("a b", "1/2")] =
      Normal
        (serialize
           {| front := {| special := true; front_text := "https://example.com/p" |};
              query := Some (UrlEncoded.serialize l);
              fragment := Some "top" |})
    /\ has_key "x" l = true /\ has_key "a b" l = true.
Proof.
  destruct (@appendQueryParams_names simple_host "https://example.com/p?x=0#top"
              [("a b", "1/2")] _ eq_refl ltac:(discriminate))
    as (l & Hr & Hk & _).
  exists l. split; [exact Hr|]. split; rewrite Hk; reflexivity.
Defined.

(** X4.  What [appendQueryParams] appends, [getAllQueryParams] reads back:
    on a page whose search string is [?] followed by the query of the
    returned URL, every key of the object other than [__proto__] has the
    object's value. *)
Theorem appended_params_read_back `{H : Host}
    (baseUrl : string) (params : Obj) (u : URL) (k v : string) :
  URL_new baseUrl = Some u ->
  wf params ->
  text_pairs params ->
  In (k, v) params ->
  k <> "__proto__" ->
  exists q,
    appendQueryParams baseUrl params =
      Normal (serialize {| front := front (url u); query := Some q;
                           fragment := fragment (url u) |})
    /\ forall w, location_search w = String "?" q ->
                 get_own (getAllQueryParams w) k = Some v.
Proof.
  intros Hu Hwf Htext Hin Hk.
  assert (Hp : params <> []) by (intros ->; destruct Hin).
  eexists. split; [exact (appendQueryParams_list _ _ _ Hu Hp)|].
  intros w Hw. rewrite (getAllQueryParams_lookup _ _ Hk), Hw.
  unfold URLSearchParams_new. cbn [Ascii.eqb Bool.eqb].
  assert (HE : text_pairs (Object_entries params))
    by (eapply Permutation_Forall; [symmetry; apply Object_entries_perm|exact Htext]).
  rewrite parse_serialize_text
    by (apply fold_set_entry_text; [exact HE|now apply (URL_new_text baseUrl)]).
  apply last_value_one_occurrence.
  apply occurrences_fold_same; [now apply Object_entries_NoDup|].
  eapply Permutation_in; [symmetry; apply Object_entries_perm|exact Hin].
Qed.

Lemma appended_params_read_back_example :
  exists q,
    @appendQueryParams simple_host "https://example.com?a=9" [("a", "1 & 2"); ("b", "x=y")] =
      Normal (serialize {| front := {| special := true; front_text := "https://example.com/" |};
                           query := Some q; fragment := None |})
    /\ forall w, location_search w = String "?" q ->
                 get_own (getAllQueryParams w) "a" = Some "1 & 2".
Proof.
  assert (Hwf : wf [("a", "1 & 2"); ("b", "x=y")]).
  { repeat constructor; cbn; intuition discriminate. }
  assert (Htext : text_pairs [("a", "1 & 2"); ("b", "x=y")]).
  { repeat constructor. }
  exact (@appended_params_read_back simple_host "https://example.com?a=9"
           [("a", "1 & 2"); ("b", "x=y")] _ "a" "1 & 2"
           eq_refl Hwf Htext (or_introl eq_refl) ltac:(discriminate)).
Defined.

(** X5.  With a base that parses, [redirectToUrlWithQuery] returns
    normally and asks for the navigation to the text [appendQueryParams]
    returns for the base and the current query parameters; no element is
    touched. *)
Theorem redirectToUrlWithQuery_navigates `{H : Host} (w : World) (baseUrl : string) (u : URL) :
  URL_new baseUrl = Some u ->
  exists target,
    appendQueryParams baseUrl (getAllQueryParams w) = Normal target
    /\ redirectToUrlWithQuery baseUrl w =
       (Normal tt,
        {| location_search := location_search w;
           location_assigned := Some target;
           dom := dom w |}).
Proof.
  intros Hu. unfold redirectToUrlWithQuery.
  destruct (appendQueryParams baseUrl (getAllQueryParams w)) as [target|e] eqn:Happ.
  - exists target. now split.
  - exfalso. unfold appendQueryParams in Happ. now rewrite Hu in Happ.
Qed.

Lemma redirectToUrlWithQuery_navigates_example :
  @redirectToUrlWithQuery simple_host "https://x.com/landing?src=mail"
    (page "?id=5&src=ad" (blank OtherElement))
  = (Normal tt,
     {| location_search := "?id=5&src=ad";
        location_assigned := Some "https://x.com/landing?src=ad&id=5";
        dom := dom (page "?id=5&src=ad" (blank OtherElement)) |}).
Proof.
  destruct (@redirectToUrlWithQuery_navigates simple_host
              (page "?id=5&src=ad" (blank OtherElement))
              "https://x.com/landing?src=mail" _ eq_refl)
    as (target & Happ & Hr).
  injection Happ as <-. exact Hr.
Defined.

(** X6.  [redirectToUrlWithQuery] throws exactly when the parser rejects
    the base; what it throws is the parser's [TypeError], and no navigation
    has been asked for. *)
Theorem redirectToUrlWithQuery_fails_iff `{H : Host} (w : World) (baseUrl : string) :
  (redirectToUrlWithQuery baseUrl w = (Throw URLTypeError, w) <-> basic_parse baseUrl = None)
  /\ (forall e w', redirectToUrlWithQuery baseUrl w = (Throw e, w') ->
                   e = URLTypeError /\ w' = w).
Proof.
  unfold redirectToUrlWithQuery, appendQueryParams, URL_new.
  destruct (basic_parse baseUrl) as [r|]; repeat split; try discriminate; try congruence.
  all: intros [= <- <-]; reflexivity.
Qed.



Section AssignmentReturns.



End AssignmentReturns.


(** X9.  In the URL the sinks build, a parameter of the current page wins
    over the base: a key other than [__proto__] that the query string of the
    page gives a last value [v] occurs once in the merged query, with [v],
    and the parameters of the names the page does not have are those of the
    base. *)
Theorem page_params_override_base `{H : Host}
    (w : World) (baseUrl : string) (u : URL) (k v : string) :
  URL_new baseUrl = Some u ->
  k <> "__proto__" ->
  last_value k (URLSearchParams_new (location_search w)) = Some v ->
  exists l,
    appendQueryParams baseUrl (getAllQueryParams w) =
      Normal
        (serialize
           {| front := front (url u);
              query := Some (UrlEncoded.serialize l);
              fragment := fragment (url u) |})
    /\ occurrences k l = [(k, v)]
    /\ (forall n, has_key n (getAllQueryParams w) = false ->
                  occurrences n l = occurrences n (searchParams u)).
Proof.
  intros Hu Hk Hv.
  assert (Hin : In (k, v) (getAllQueryParams w)).
  { apply get_own_In. now rewrite (getAllQueryParams_lookup _ _ Hk). }
  assert (Hp : getAllQueryParams w <> []) by (intros Hnil; rewrite Hnil in Hin; destruct Hin).
  pose proof (Object_entries_NoDup _ (getAllQueryParams_wf w)) as Hnd.
  eexists. split; [exact (appendQueryParams_list _ _ _ Hu Hp)|]. split.
  - apply occurrences_fold_same; [exact Hnd|].
    eapply Permutation_in; [symmetry; apply Object_entries_perm|exact Hin].
  - intros n Hn. apply occurrences_fold_other. now rewrite has_key_entries.
Qed.

Lemma page_params_override_base_example :
  exists l,
    @appendQueryParams simple_host "https://x.com/landing?src=mail&v=2"
      (getAllQueryParams (page "?src=ad&src=feed" (blank OtherElement))) =
      Normal
        (serialize
           {| front := {| special := true; front_text := "https://x.com/landing" |};
              query := Some (UrlEncoded.serialize l);
              fragment := None |})
    /\ occurrences "src" l = [("src", "feed")]
    /\ occurrences "v" l = [("v", "2")].
Proof.
  destruct (@page_params_override_base simple_host
              (page "?src=ad&src=feed" (blank OtherElement))
              "https://x.com/landing?src=mail&v=2" _ "src" "feed"
              eq_refl ltac:(discriminate) eq_refl)
    as (l & Hr & Hsrc & Hother).
  exists l. split; [exact Hr|]. split; [exact Hsrc|].
  exact (Hother "v" eq_refl).
Defined.

Section Repeat.

Lemma dom_update_same w r e : dom (update_element w r e) r = Some e.
Proof. cbn [update_element dom]. now rewrite Nat.eqb_refl. Qed.

Lemma update_element_twice w r e :
  let w1 := update_element w r e in
  let w2 := update_element w1 r e in
  location_search w2 = location_search w1
  /\ location_assigned w2 = location_assigned w1
  /\ forall r', dom w2 r' = dom w1 r'.
Proof.
  cbn [update_element dom location_search location_assigned]. repeat split.
  intros r'. now destruct (Nat.eqb r' r).
Qed.

End Repeat.

(** X10.  Calling an element sink a second time, in the world the first
    call left, ends as the first call did and changes nothing more: the
    location is the same and every element has the attributes it had. *)
Theorem element_sinks_repeatable `{H : Host} (w : World) (v : Value) (baseUrl : string) :
  (forall c w1, setIframeSrcWithQuery v baseUrl w = (c, w1) ->
     exists w2,
       setIframeSrcWithQuery v baseUrl w1 = (c, w2)
       /\ location_search w2 = location_search w1
       /\ location_assigned w2 = location_assigned w1
       /\ forall r, dom w2 r = dom w1 r)
  /\ (forall c w1, generateLinkWithQuery baseUrl v w = (c, w1) ->
        exists w2,
          generateLinkWithQuery baseUrl v w1 = (c, w2)
          /\ location_search w2 = location_search w1
          /\ location_assigned w2 = location_assigned w1
          /\ forall r, dom w2 r = dom w1 r).
Proof.
  split; intros c w1.
  - unfold setIframeSrcWithQuery at 1.
    destruct (instanceOf w v HTMLIFrameElement) eqn:Hi; cbn [negb].
    + destruct (appendQueryParams baseUrl (getAllQueryParams w)) as [s|e] eqn:Happ.
      * intros Hs. destruct v as [| | |[[| |]|] o|r]; try discriminate Hi.
        -- cbn [set_src] in Hs. injection Hs as <- <-. exists w.
           unfold setIframeSrcWithQuery. rewrite Hi, Happ. now repeat split.
        -- unfold instanceOf in Hi. destruct (dom w r) as [f|] eqn:Hf; [|discriminate Hi].
           pose (f' := {| interface := interface f; attr_src := Some s;
                          attr_href := attr_href f |}).
           assert (Hw1 : set_src (VElement r) s w = (Normal tt, update_element w r f'))
             by (unfold set_src; now rewrite Hf).
           rewrite Hw1 in Hs. injection Hs as <- <-.
           exists (update_element (update_element w r f') r f'). split.
           ++ unfold setIframeSrcWithQuery, instanceOf, set_src.
              rewrite dom_update_same. cbn [interface f']. rewrite Hi. cbn [negb].
              change (getAllQueryParams (update_element w r f')) with (getAllQueryParams w).
              now rewrite Happ.
           ++ apply update_element_twice.
      * intros [= <- <-]. exists w. unfold setIframeSrcWithQuery.
        rewrite Hi, Happ. now repeat split.
    + intros [= <- <-]. exists w. unfold setIframeSrcWithQuery. rewrite Hi.
      now repeat split.
  - unfold generateLinkWithQuery at 1.
    destruct (instanceOf w v HTMLAnchorElement) eqn:Hi; cbn [negb].
    + destruct (appendQueryParams baseUrl (getAllQueryParams w)) as [s|e] eqn:Happ.
      * intros Hs. destruct v as [| | |[[| |]|] o|r]; try discriminate Hi.
        -- cbn [set_href] in Hs. injection Hs as <- <-. exists w.
           unfold generateLinkWithQuery. rewrite Hi, Happ. now repeat split.
        -- unfold instanceOf in Hi. destruct (dom w r) as [a|] eqn:Ha; [|discriminate Hi].
           pose (a' := {| interface := interface a; attr_src := attr_src a;
                          attr_href := Some s |}).
           assert (Hw1 : set_href (VElement r) s w = (Normal tt, update_element w r a'))
             by (unfold set_href; now rewrite Ha).
           rewrite Hw1 in Hs. injection Hs as <- <-.
           exists (update_element (update_element w r a') r a'). split.
           ++ unfold generateLinkWithQuery, instanceOf, set_href.
              rewrite dom_update_same. cbn [interface a']. rewrite Hi. cbn [negb].
              change (getAllQueryParams (update_element w r a')) with (getAllQueryParams w).
              now rewrite Happ.
           ++ apply update_element_twice.
      * intros [= <- <-]. exists w. unfold generateLinkWithQuery.
        rewrite Hi, Happ. now repeat split.
    + intros [= <- <-]. exists w. unfold generateLinkWithQuery. rewrite Hi.
      now repeat split.
Qed.

(** X11.  On a page without a query string (the search string is empty,
    or a lone [?]) there is nothing to propagate: the map is empty, the URL
    built from a base that parses is the base as parsed, its own query left
    as it was, and that is where [redirectToUrlWithQuery] navigates. *)
Theorem no_query_string_propagates_nothing `{H : Host}
    (w : World) (baseUrl : string) (u : URL) :
  location_search w = "" \/ location_search w = "?" ->
  URL_new baseUrl = Some u ->
  getAllQueryParams w = []
  /\ appendQueryParams baseUrl (getAllQueryParams w) = Normal (href u)
  /\ redirectToUrlWithQuery baseUrl w =
     (Normal tt,
      {| location_search := location_search w;
         location_assigned := Some (href u);
         dom := dom w |}).
Proof.
  intros Hs Hu.
  assert (Hnil : getAllQueryParams w = [])
    by (unfold getAllQueryParams; destruct Hs as [-> | ->]; reflexivity).
  assert (Happ : appendQueryParams baseUrl (getAllQueryParams w) = Normal (href u))
    by (rewrite Hnil; unfold appendQueryParams; now rewrite Hu).
  split; [exact Hnil|]. split; [exact Happ|].
  unfold redirectToUrlWithQuery. now rewrite Happ.
Qed.

Lemma no_query_string_propagates_nothing_example :
  @redirectToUrlWithQuery simple_host "https://x.com/a?keep=%7e&k" (page "?" (blank OtherElement))
  = (Normal tt,
     {| location_search := "?";
        location_assigned := Some "https://x.com/a?keep=%7e&k";
        dom := dom (page "?" (blank OtherElement)) |}).
Proof.
  exact (proj2 (proj2 (@no_query_string_propagates_nothing simple_host
                         (page "?" (blank OtherElement)) "https://x.com/a?keep=%7e&k" _
                         (or_intror eq_refl) eq_refl))).
Defined.
